(** * density_splitter: the RSD model evaluator of [python_tools/rsdmodel.py]
    and the sampler callback of [python_tools/mcmc.py].

    Python floats are idealised as real numbers; the one non-finite value the
    code produces on purpose, [-np.inf], is kept apart in [pyfloat].  Python
    exceptions are values of [exn] carried by the result monad [M]. *)

From Stdlib Require Import Reals Lra Lia List ZArith Bool.
Import ListNotations.
Open Scope R_scope.

(** ** Exceptions and the result monad *)

Inductive exn : Type :=
| ValueError
| UnboundLocalError
| AttributeError
| IndexError.

Definition M (A : Type) : Type := (exn + A)%type.

Definition ret {A : Type} (a : A) : M A := inr a.
Definition raise {A : Type} (e : exn) : M A := inl e.
Definition bind {A B : Type} (c : M A) (k : A -> M B) : M B :=
  match c with
  | inl e => inl e
  | inr a => k a
  end.

Notation "x <- c ;; k" := (bind c (fun x => k))
  (at level 61, c at next level, right associativity).
Notation "' pat <- c ;; k" := (bind c (fun x => match x with pat => k end))
  (at level 61, pat pattern, c at next level, right associativity).

Fixpoint foldM {A S : Type} (f : A -> S -> M S) (l : list A) (s : S) : M S :=
  match l with
  | [] => ret s
  | a :: l' => s' <- f a s ;; foldM f l' s'
  end.

Fixpoint mapM {A B : Type} (f : A -> M B) (l : list A) : M (list B) :=
  match l with
  | [] => ret []
  | a :: l' => b <- f a ;; bs <- mapM f l' ;; ret (b :: bs)
  end.

(** ** Floats *)

(** A float a function may return: a real number or negative infinity. *)
Inductive pyfloat : Type :=
| Fin (x : R)
| NegInf.

Definition np_isfinite (x : pyfloat) : bool :=
  match x with
  | Fin _ => true
  | NegInf => false
  end.

Definition pyfloat_add (a : pyfloat) (b : R) : pyfloat :=
  match a with
  | Fin x => Fin (x + b)
  | NegInf => NegInf
  end.

Definition ltb (x y : R) : bool := if Rlt_dec x y then true else false.

(** ** Sequence unpacking: [a, b = theta] and [a, b, c = theta] *)

Definition unpack2 (theta : list R) : M (R * R) :=
  match theta with
  | [a; b] => ret (a, b)
  | _ => raise ValueError
  end.

Definition unpack3 (theta : list R) : M (R * R * R) :=
  match theta with
  | [a; b; c] => ret (a, b, c)
  | _ => raise ValueError
  end.

(** An attribute that [__init__] sets only for some model ids. *)
Definition attr {A : Type} (o : option A) : M A :=
  match o with
  | Some a => ret a
  | None => raise AttributeError
  end.

(** ** The NumPy operations the model uses *)

(** [np.linspace(a, b, n)]: [n] evenly spaced samples, both ends included. *)
Definition np_linspace (a b : R) (n : nat) : list R :=
  map (fun i => a + INR i * ((b - a) / INR (n - 1))) (seq 0 n).

Arguments np_linspace : simpl never.

(** [np.trapz(y, x)]: [sum (diff(x) * (y[1:] + y[:-1]) / 2)]. *)
Fixpoint np_trapz (y x : list R) : R :=
  match y, x with
  | y0 :: ((y1 :: _) as y'), x0 :: ((x1 :: _) as x') =>
      (x1 - x0) * (y1 + y0) / 2 + np_trapz y' x'
  | _, _ => 0
  end.

(** Elementwise combination of two arrays of one shape. *)
Fixpoint map2 {A B C : Type} (f : A -> B -> C) (a : list A) (b : list B) : list C :=
  match a, b with
  | x :: a', y :: b' => f x y :: map2 f a' b'
  | _, _ => []
  end.

(** [a - b] on one-dimensional arrays, with NumPy's broadcasting of a
    length-one operand; any other shape mismatch raises. *)
Definition np_sub (a b : list R) : M (list R) :=
  if Nat.eqb (length a) (length b) then ret (map2 Rminus a b)
  else match a, b with
       | [x], _ => ret (map (fun y => x - y) b)
       | _, [y] => ret (map (fun x => x - y) a)
       | _, _ => raise ValueError
       end.

Definition Rsum (l : list R) : R := fold_right Rplus 0 l.

(** [np.dot] of two one-dimensional arrays. *)
Definition np_dot_vv (a b : list R) : M R :=
  if Nat.eqb (length a) (length b) then ret (Rsum (map2 Rmult a b))
  else raise ValueError.

(** [np.dot] of a one-dimensional array with a two-dimensional one
    (a list of rows). *)
Definition np_dot_vm (v : list R) (m : list (list R)) : M (list R) :=
  if Nat.eqb (length v) (length m) then
    ret (map (fun j => Rsum (map2 (fun vi row => vi * nth j row 0) v m))
             (seq 0 (length (hd [] m))))
  else raise ValueError.

(** [np.unique]: the sorted distinct values of an array. *)
Fixpoint insert_unique (x : R) (l : list R) : list R :=
  match l with
  | [] => [x]
  | y :: l' =>
      if Rlt_dec x y then x :: y :: l'
      else if Rlt_dec y x then y :: insert_unique x l'
      else y :: l'
  end.

Definition np_unique (l : list R) : list R := fold_right insert_unique [] l.

(** [np.argsort]: the indices that sort an array (insertion of each index
    before the first later index whose key is not smaller). *)
Fixpoint insert_idx (key : nat -> R) (i : nat) (l : list nat) : list nat :=
  match l with
  | [] => [i]
  | j :: l' =>
      if Rle_dec (key i) (key j) then i :: j :: l'
      else j :: insert_idx key i l'
  end.

Definition np_argsort (a : list R) : list nat :=
  fold_right (insert_idx (fun i => nth i a 0)) [] (seq 0 (length a)).

(** Indexing by an index array: [a[idx]]. *)
Definition take_idx (a : list R) (idx : list nat) : list R :=
  map (fun i => nth i a 0) idx.

(** [np.zeros([n, m])] and the assignment [g[j, i] = v]. *)
Definition np_zeros2 (n m : nat) : list (list R) := repeat (repeat 0 m) n.

Fixpoint set_nth {A : Type} (l : list A) (k : nat) (v : A) : list A :=
  match l, k with
  | [], _ => []
  | _ :: l', O => v :: l'
  | x :: l', S k' => x :: set_nth l' k' v
  end.

Definition set2 (g : list (list R)) (j i : nat) (v : R) : list (list R) :=
  set_nth g j (set_nth (nth j g []) i v).

(** [data[:, k]] for a non-negative column [k]. *)
Definition column (k : nat) (data : list (list R)) : M (list R) :=
  mapM (fun row => match nth_error row k with
                   | Some v => ret v
                   | None => raise IndexError
                   end) data.

(** [data[counter, -2]]: second-to-last entry of row [counter]. *)
Definition item_neg2 (data : list (list R)) (counter : nat) : M R :=
  match nth_error data counter with
  | None => raise IndexError
  | Some row =>
      if Nat.leb 2 (length row) then
        match nth_error row (length row - 2) with
        | Some v => ret v
        | None => raise IndexError
        end
      else raise IndexError
  end.

(** A strictly increasing sequence. *)
Fixpoint increasing (l : list R) : Prop :=
  match l with
  | a :: ((b :: _) as t) => a < b /\ increasing t
  | _ => True
  end.

(** ** Interpolating splines *)

(** The two extrapolation modes the source uses: the constructor's default
    [ext=0] (continue the end polynomials) and [ext=3] (hold the boundary
    value). *)
Inductive ext_mode : Type :=
| Extrapolate
| Const.

(** What [InterpolatedUnivariateSpline(x, y, k=.., ext=..)] is built from. *)
Record Spline : Type := mkSpline {
  sp_x : list R;
  sp_y : list R;
  sp_k : nat;
  sp_ext : ext_mode
}.

(** The object the constructor builds from samples it accepts.  SciPy accepts
    more than [k] samples on a strictly increasing axis and raises on
    anything else; the record keeps the samples whatever they are, so a
    statement that an evaluator or the constructor of the model returns is
    made below either under the hypothesis that it does, or for axes of at
    least four strictly increasing radii. *)
Definition InterpolatedUnivariateSpline (x y : list R) (k : nat) (ext : ext_mode)
  : Spline := mkSpline x y k ext.

Definition clamp (lo hi x : R) : R :=
  if Rlt_dec x lo then lo else if Rlt_dec hi x then hi else x.

(** ** The model object *)

(** The attributes of an [RSDModel] instance that its methods read.
    [__init__] sets [sv] only for model ids 1 and 3, and [vr], [dvr] only for
    model id 3. *)
Record RSDModel : Type := mkRSDModel {
  model : Z;
  full_fit : bool;
  nmocks : Z;
  s8norm : R;
  iaH : R;
  icov : list (list R);
  datavec : list R;
  s_for_xi : list R;
  mu_for_xi : list R;
  r_for_delta : list R;
  xi_r : Spline;
  delta_r : Spline;
  Delta_r : Spline;
  sv : option Spline;
  vr : option Spline;
  dvr : option Spline
}.

(** [log_prior] (rsdmodel.py, lines 163-173). *)
Definition log_prior (self : RSDModel) (theta : list R) : M pyfloat :=
  if (model self =? 1)%Z || (model self =? 3)%Z then
    '(fs8, sigma_v, epsilon) <- unpack3 theta ;;
    if ltb 0.1 fs8 && ltb fs8 2.0 && ltb 1 sigma_v && ltb sigma_v 500
       && ltb 0.8 epsilon && ltb epsilon 1.2
    then ret (Fin 0.0)
    else ret NegInf
  else
    '(fs8, epsilon) <- unpack2 theta ;;
    if ltb 0.1 fs8 && ltb fs8 2.0 && ltb 0.8 epsilon && ltb epsilon 1.2
    then ret (Fin 0.0)
    else ret NegInf.

(** [readCorrFile] (lines 389-401), from the two-dimensional array
    [np.genfromtxt] parsed, given by its rows.  The two loops thread the grid
    and [counter]; the indices [j], [i] they assign at are always inside the
    grid.  [np.genfromtxt] parses a file of a single row or a single column
    into a one-dimensional array, and rejects rows of different lengths:
    the tables the function is then given are those of [array2d] below. *)
Definition readCorrFile (data : list (list R))
  : M (list R * list R * list (list R)) :=
  c0 <- column 0 data ;;
  c1 <- column 1 data ;;
  let s := np_unique c0 in
  let mu := np_unique c1 in
  let xi_smu := np_zeros2 (length s) (length mu) in
  st <- foldM (fun i st0 =>
          foldM (fun j st1 =>
                   v <- item_neg2 data (snd st1) ;;
                   ret (set2 (fst st1) j i v, S (snd st1)))
                (seq 0 (length s)) st0)
        (seq 0 (length mu)) (xi_smu, 0%nat) ;;
  ret (s, mu, fst st).

Section SciPy.

(** SciPy's numerical kernels, which the repository imports:
    [splev k x y] is the degree-[k] interpolating spline through the samples
    [(x, y)], as a function on the whole line (its end polynomials continued);
    [simps y x] is [scipy.integrate.simps(y, x)];
    [fsolve f x0] is [scipy.optimize.fsolve(func=f, x0=x0)[0]]. *)
Variable splev : nat -> list R -> list R -> R -> R.
Variable simps : list R -> list R -> R.
Variable fsolve : (R -> R) -> R -> R.

(** Calling a spline object at a point. *)
Definition spline_call (sp : Spline) (x : R) : R :=
  match sp_ext sp with
  | Extrapolate => splev (sp_k sp) (sp_x sp) (sp_y sp) x
  | Const =>
      splev (sp_k sp) (sp_x sp) (sp_y sp)
            (clamp (hd 0 (sp_x sp)) (last (sp_x sp) 0) x)
  end.

(** The rescaled radius axis (lines 185-190, repeated at 252-257 and
    307-312). *)
Definition rescaled_r (alpha_perp alpha_para : R) (r : list R) : list R :=
  let mus := np_linspace 0 1 100 in
  map (fun ri =>
         np_trapz
           (map (fun m => (ri * alpha_para) *
                          sqrt (1 + (1 - m ^ 2) *
                                    (alpha_perp ^ 2 / alpha_para ^ 2 - 1)))
                mus)
           mus)
      r.

(** [_getMonopole] and [_getQuadrupole] (lines 404-421). *)
Definition _getMonopole (s mu : list R) (xi_smu : list (list R))
  : list R * list R :=
  (s, map (fun row =>
             let mufunc := InterpolatedUnivariateSpline mu row 3 Extrapolate in
             let xaxis := np_linspace (-1) 1 1000 in
             let yaxis := map (fun v => v / 2) (map (spline_call mufunc) xaxis) in
             simps yaxis xaxis)
          xi_smu).

Definition _getQuadrupole (s mu : list R) (xi_smu : list (list R))
  : list R * list R :=
  (s, map (fun row =>
             let mufunc := InterpolatedUnivariateSpline mu row 3 Extrapolate in
             let xaxis := np_linspace (-1) 1 1000 in
             let yaxis := map2 (fun v x => v * 5 / 2 * (3 * x ^ 2 - 1) / 2)
                               (map (spline_call mufunc) xaxis) xaxis in
             simps yaxis xaxis)
          xi_smu).

(** *** Variant 1: streaming model with dispersion (lines 176-241) *)

(** The interpolants rebuilt on the rescaled axis (lines 186-202), in the
    order [rescaled_xi_r], [rescaled_delta_r], [rescaled_Delta_r],
    [rescaled_sv]. *)
Definition model1_profiles (self : RSDModel) (alpha_perp alpha_para : R)
  : M (Spline * Spline * Spline * Spline) :=
  let r := r_for_delta self in
  let x := rescaled_r alpha_perp alpha_para r in
  let y1 := map (spline_call (xi_r self)) r in
  let y2 := map (spline_call (delta_r self)) r in
  let y3 := map (spline_call (Delta_r self)) r in
  self_sv <- attr (sv self) ;;
  let y4 := map (spline_call self_sv) r in
  ret (InterpolatedUnivariateSpline x y1 3 Extrapolate,
       InterpolatedUnivariateSpline x y2 3 Const,
       InterpolatedUnivariateSpline x y3 3 Const,
       InterpolatedUnivariateSpline x y4 3 Const).

(** The body of the inner loop (lines 208-225): [true_mu[j]] and
    [xi_model[j]] at separation [si] and angle cosine [muj]. *)
Definition model1_point (self : RSDModel)
    (scaled_fs8 sigma_v alpha_perp alpha_para : R)
    (P : Spline * Spline * Spline * Spline) (si muj : R) : R * R :=
  let '(rescaled_xi_r, rescaled_delta_r, rescaled_Delta_r, rescaled_sv) := P in
  let true_sperp := si * sqrt (1 - muj ^ 2) * alpha_perp in
  let true_spar := si * muj * alpha_para in
  let true_s := sqrt (true_spar ^ 2 + true_sperp ^ 2) in
  let true_mu := true_spar / true_s in
  let rpar := true_spar +
              true_s * scaled_fs8 * spline_call rescaled_Delta_r true_s * true_mu / 3 in
  let sy_central :=
    sigma_v * spline_call rescaled_sv (sqrt (true_sperp ^ 2 + rpar ^ 2)) * iaH self in
  let y := np_linspace (-3 * sy_central) (3 * sy_central) 100 in
  let rpary := map (fun yk => rpar - yk) y in
  let rr := map (fun v => sqrt (true_sperp ^ 2 + v ^ 2)) rpary in
  let integrand :=
    map2 (fun yk rrk =>
            (1 + spline_call rescaled_xi_r rrk) *
            (1 + (scaled_fs8 * spline_call rescaled_Delta_r rrk / 3
                  - yk * true_mu / rrk) * (1 - true_mu ^ 2)
               + scaled_fs8 * (spline_call rescaled_delta_r rrk
                               - 2 * spline_call rescaled_Delta_r rrk / 3)
                 * true_mu ^ 2))
         y rr in
  let integrand :=
    map2 (fun ik yk =>
            ik * exp (- (yk ^ 2) / (2 * sy_central ^ 2))
            / (sqrt (2 * PI) * sy_central))
         integrand y in
  (true_mu, np_trapz integrand y - 1).

(** The multipole reduction at one separation (lines 228-238). *)
Definition model1_multipoles (true_mu xi_model : list R) : R * R :=
  let mufunc :=
    InterpolatedUnivariateSpline (take_idx true_mu (np_argsort true_mu))
                                 (take_idx xi_model (np_argsort true_mu))
                                 3 Extrapolate in
  let xaxis := np_linspace (-1) 1 1000 in
  let yaxis := map (fun v => v / 2) (map (spline_call mufunc) xaxis) in
  let monopole_i := simps yaxis xaxis in
  let yaxis := map2 (fun v x => v * 5 / 2 * (3 * x ^ 2 - 1) / 2)
                    (map (spline_call mufunc) xaxis) xaxis in
  (monopole_i, simps yaxis xaxis).

Definition model1_theory (self : RSDModel)
    (fs8 sigma_v alpha_perp alpha_para : R) (s mu : list R)
  : M (list R * list R) :=
  let scaled_fs8 := fs8 / s8norm self in
  P <- model1_profiles self alpha_perp alpha_para ;;
  let sigma_v := alpha_para * sigma_v in
  let rows :=
    map (fun si =>
           let pts :=
             map (model1_point self scaled_fs8 sigma_v alpha_perp alpha_para P si)
                 mu in
           model1_multipoles (map fst pts) (map snd pts))
        s in
  ret (map fst rows, map snd rows).

(** *** Variant 2: linear model (lines 243-296) *)

(** Lines 253-267: [rescaled_xi_r], [rescaled_delta_r], [rescaled_Delta_r]. *)
Definition model2_profiles (self : RSDModel) (alpha_perp alpha_para : R)
  : Spline * Spline * Spline :=
  let r := r_for_delta self in
  let x := rescaled_r alpha_perp alpha_para r in
  let y1 := map (spline_call (xi_r self)) r in
  let y2 := map (spline_call (delta_r self)) r in
  let y3 := map (spline_call (Delta_r self)) r in
  (InterpolatedUnivariateSpline x y1 3 Extrapolate,
   InterpolatedUnivariateSpline x y2 3 Const,
   InterpolatedUnivariateSpline x y3 3 Const).

(** The body of the inner loop (lines 271-281).  [true_spar / true_s] is the
    quotient of real numbers; where [true_s] is 0 (at [s = 0]) the code
    computes [0.0 / 0.0]. *)
Definition model2_point (scaled_fs8 alpha_perp alpha_para : R)
    (P : Spline * Spline * Spline) (si muj : R) : R * R :=
  let '(rescaled_xi_r, rescaled_delta_r, rescaled_Delta_r) := P in
  let true_sperp := si * sqrt (1 - muj ^ 2) * alpha_perp in
  let true_spar := si * muj * alpha_para in
  let true_s := sqrt (true_spar ^ 2 + true_sperp ^ 2) in
  let true_mu := true_spar / true_s in
  let r := true_s *
           (1 + scaled_fs8 / 3 * spline_call rescaled_Delta_r true_s * true_mu ^ 2) in
  (true_mu,
   spline_call rescaled_xi_r r
   + scaled_fs8 / 3 * spline_call rescaled_Delta_r r
     * (1 + spline_call rescaled_xi_r r)
   + scaled_fs8 * true_mu ^ 2
     * (spline_call rescaled_delta_r r - spline_call rescaled_Delta_r r)
     * (1 + spline_call rescaled_xi_r r)).

(** Lines 284-294. *)
Definition model2_multipoles (true_mu xi_model : list R) : R * R :=
  let mufunc :=
    InterpolatedUnivariateSpline (take_idx true_mu (np_argsort true_mu))
                                 (take_idx xi_model (np_argsort true_mu))
                                 3 Extrapolate in
  let xaxis := np_linspace (-1) 1 1000 in
  let yaxis := map (fun v => v / 2) (map (spline_call mufunc) xaxis) in
  let monopole_i := simps yaxis xaxis in
  let yaxis := map2 (fun v x => v * 5 / 2 * (3 * x ^ 2 - 1) / 2)
                    (map (spline_call mufunc) xaxis) xaxis in
  (monopole_i, simps yaxis xaxis).

Definition model2_theory (self : RSDModel)
    (fs8 alpha_perp alpha_para : R) (s mu : list R)
  : M (list R * list R) :=
  let scaled_fs8 := fs8 / s8norm self in
  let P := model2_profiles self alpha_perp alpha_para in
  let rows :=
    map (fun si =>
           let pts := map (model2_point scaled_fs8 alpha_perp alpha_para P si) mu in
           model2_multipoles (map fst pts) (map snd pts))
        s in
  ret (map fst rows, map snd rows).

(** *** Variant 3: streaming model with coherent infall (lines 298-386) *)

(** Lines 308-328, in the order [rescaled_xi_r], [rescaled_delta_r],
    [rescaled_Delta_r], [rescaled_vr], [rescaled_dvr], [rescaled_sv]. *)
Definition model3_profiles (self : RSDModel) (alpha_perp alpha_para : R)
  : M (Spline * Spline * Spline * Spline * Spline * Spline) :=
  let r := r_for_delta self in
  let x := rescaled_r alpha_perp alpha_para r in
  let y1 := map (spline_call (xi_r self)) r in
  let y2 := map (spline_call (delta_r self)) r in
  let y3 := map (spline_call (Delta_r self)) r in
  self_vr <- attr (vr self) ;;
  let y4 := map (spline_call self_vr) r in
  self_dvr <- attr (dvr self) ;;
  let y5 := map (spline_call self_dvr) r in
  self_sv <- attr (sv self) ;;
  let y6 := map (spline_call self_sv) r in
  ret (InterpolatedUnivariateSpline x y1 3 Extrapolate,
       InterpolatedUnivariateSpline x y2 3 Const,
       InterpolatedUnivariateSpline x y3 3 Const,
       InterpolatedUnivariateSpline x y4 3 Const,
       InterpolatedUnivariateSpline x y5 3 Const,
       InterpolatedUnivariateSpline x y6 3 Const).

(** The body of the inner loop (lines 334-367). *)
Definition model3_point (self : RSDModel)
    (sigma_v alpha_perp alpha_para : R)
    (P : Spline * Spline * Spline * Spline * Spline * Spline)
    (si muj : R) : R * R :=
  let '(rescaled_xi_r, rescaled_delta_r, rescaled_Delta_r,
        rescaled_vr, rescaled_dvr, rescaled_sv) := P in
  let true_sperp := si * sqrt (1 - muj ^ 2) * alpha_perp in
  let true_spar := si * muj * alpha_para in
  let true_s := sqrt (true_spar ^ 2 + true_sperp ^ 2) in
  let true_mu := true_spar / true_s in
  let residual := fun rpar : R =>
    let rperp := true_sperp in
    let r := sqrt (rpar ^ 2 + rperp ^ 2) in
    let mu := rpar / r in
    rpar - true_spar + spline_call rescaled_vr r * mu ^ 2 * iaH self in
  let rpar := fsolve residual true_spar in
  let sy_central :=
    sigma_v * spline_call rescaled_sv (sqrt (true_sperp ^ 2 + rpar ^ 2)) * iaH self in
  let y := np_linspace (-5 * sy_central) (5 * sy_central) 100 in
  let rpar := map (fun yk => fsolve residual true_spar - yk) y in
  let rr := map (fun v => sqrt (true_sperp ^ 2 + v ^ 2)) rpar in
  let sy := map (fun rrk => sigma_v * spline_call rescaled_sv rrk * iaH self) rr in
  let integrand :=
    map (fun rrk =>
           (1 + spline_call rescaled_xi_r rrk) *
           / (1 + spline_call rescaled_vr rrk / (rrk / iaH self)
              + (spline_call rescaled_dvr rrk - spline_call rescaled_vr rrk / rrk)
                * iaH self * true_mu ^ 2))
        rr in
  let integrand :=
    map2 (fun ik ysy =>
            ik * exp (- (fst ysy ^ 2) / (2 * snd ysy ^ 2))
            / (sqrt (2 * PI) * snd ysy))
         integrand (combine y sy) in
  (true_mu, np_trapz integrand y - 1).

(** Lines 373-383: the samples are used in loop order. *)
Definition model3_multipoles (true_mu xi_model : list R) : R * R :=
  let mufunc := InterpolatedUnivariateSpline true_mu xi_model 3 Extrapolate in
  let xaxis := np_linspace (-1) 1 1000 in
  let yaxis := map (fun v => v / 2) (map (spline_call mufunc) xaxis) in
  let monopole_i := simps yaxis xaxis in
  let yaxis := map2 (fun v x => v * 5 / 2 * (3 * x ^ 2 - 1) / 2)
                    (map (spline_call mufunc) xaxis) xaxis in
  (monopole_i, simps yaxis xaxis).

Definition model3_theory (self : RSDModel)
    (fs8 sigma_v alpha_perp alpha_para : R) (s mu : list R)
  : M (list R * list R) :=
  let scaled_fs8 := fs8 / s8norm self in
  P <- model3_profiles self alpha_perp alpha_para ;;
  let sigma_v := alpha_para * sigma_v in
  let rows :=
    map (fun si =>
           let pts := map (model3_point self sigma_v alpha_perp alpha_para P si) mu in
           model3_multipoles (map fst pts) (map snd pts))
        s in
  ret (map fst rows, map snd rows).

(** *** The likelihood (lines 130-161) *)

(** Lines 131-134: the parameters [log_likelihood] binds; [sigma_v] stays
    unbound ([None]) on the second branch. *)
Definition unpack_theta (self : RSDModel) (theta : list R)
  : M (R * option R * R) :=
  if (model self =? 1)%Z then
    '(fs8, sigma_v, epsilon) <- unpack3 theta ;;
    ret (fs8, Some sigma_v, epsilon)
  else
    '(fs8, epsilon) <- unpack2 theta ;;
    ret (fs8, None, epsilon).

(** Reading a local variable. *)
Definition local {A : Type} (v : option A) : M A :=
  match v with
  | Some a => ret a
  | None => raise UnboundLocalError
  end.

(** Lines 131-152: the predicted multipoles [xi0], [xi2].
    [epsilon ** (-2/3)] is the real power [Rpower], which is the code's value
    for the positive [epsilon] the prior box holds. *)
Definition predicted_multipoles (self : RSDModel) (theta : list R)
  : M (list R * list R) :=
  '(fs8, sigma_v, epsilon) <- unpack_theta self theta ;;
  let alpha := 1.0 in
  let alpha_para := alpha * Rpower epsilon (-2 / 3) in
  let alpha_perp := epsilon * alpha_para in
  if (model self =? 1)%Z || (model self =? 3)%Z then
    sigma_v' <- local sigma_v ;;
    model1_theory self fs8 sigma_v' alpha_perp alpha_para
                  (s_for_xi self) (mu_for_xi self)
  else
    model2_theory self fs8 alpha_perp alpha_para
                  (s_for_xi self) (mu_for_xi self).

(** Lines 154-157. *)
Definition modelvec_of (self : RSDModel) (xi0 xi2 : list R) : list R :=
  if full_fit self then xi0 ++ xi2 else xi2.

(** Lines 159-161. *)
Definition chi2_of (self : RSDModel) (modelvec : list R) : M R :=
  d <- np_sub modelvec (datavec self) ;;
  t <- np_dot_vm d (icov self) ;;
  d' <- np_sub modelvec (datavec self) ;;
  np_dot_vv t d'.

Definition log_likelihood (self : RSDModel) (theta : list R) : M R :=
  '(xi0, xi2) <- predicted_multipoles self theta ;;
  let modelvec := modelvec_of self xi0 xi2 in
  chi2 <- chi2_of self modelvec ;;
  let loglike := - IZR (nmocks self) / 2 * ln (1 + chi2 / (IZR (nmocks self) - 1)) in
  ret loglike.

End SciPy.

(** ** The sampler callback of [mcmc.py] *)

(** The two methods the callback invokes on the module-level [model]. *)
Record ModelObject : Type := mkModelObject {
  obj_log_prior : list R -> M pyfloat;
  obj_log_likelihood : list R -> M R
}.

(** A method call, as an observable event. *)
Inductive call : Type :=
| CallLogPrior (theta : list R)
| CallLogLikelihood (theta : list R).

(** Computations that record the method calls they make. *)
Definition Run (A : Type) : Type := list call -> M A * list call.

Definition run_ret {A : Type} (a : A) : Run A := fun tr => (ret a, tr).

Definition run_bind {A B : Type} (c : Run A) (k : A -> Run B) : Run B :=
  fun tr =>
    match c tr with
    | (inl e, tr') => (inl e, tr')
    | (inr a, tr') => k a tr'
    end.

Definition invoke {A : Type} (ev : call) (result : M A) : Run A :=
  fun tr => (result, tr ++ [ev]).

(** [log_probability] (mcmc.py, lines 10-14). *)
Definition log_probability (mdl : ModelObject) (theta : list R) : Run pyfloat :=
  run_bind (invoke (CallLogPrior theta) (obj_log_prior mdl theta)) (fun lp =>
  if negb (np_isfinite lp) then run_ret NegInf
  else
    run_bind (invoke (CallLogLikelihood theta) (obj_log_likelihood mdl theta))
             (fun ll => run_ret (pyfloat_add lp ll))).

(** An [RSDModel] instance seen through its two sampler-facing methods. *)
Definition rsd_object (splev : nat -> list R -> list R -> R -> R)
    (simps : list R -> list R -> R) (self : RSDModel) : ModelObject :=
  mkModelObject (log_prior self) (log_likelihood splev simps self).

(** ** Reference kernels, for evaluating the model on concrete inputs *)

(** The polynomial of least degree through the samples.  For [k + 1] samples
    this is the degree-[k] interpolating spline, which then has a single
    piece. *)
Definition lagrange (xs ys : list R) (x : R) : R :=
  Rsum (map (fun i =>
               nth i ys 0 *
               fold_right Rmult 1
                 (map (fun j =>
                         if Nat.eqb i j then 1
                         else (x - nth j xs 0) / (nth i xs 0 - nth j xs 0))
                      (seq 0 (length xs))))
            (seq 0 (length xs))).

Definition splev_ref (k : nat) (xs ys : list R) (x : R) : R := lagrange xs ys x.

(** Simpson's rule on consecutive pairs of intervals of unequal width. *)
Fixpoint basic_simps (y x : list R) : R :=
  match y, x with
  | y0 :: y1 :: ((y2 :: _) as y'), x0 :: x1 :: ((x2 :: _) as x') =>
      let h0 := x1 - x0 in
      let h1 := x2 - x1 in
      (h0 + h1) / 6 * (y0 * (2 - 1 / (h0 / h1))
                       + y1 * (h0 + h1) * (h0 + h1) / (h0 * h1)
                       + y2 * (2 - h0 / h1))
      + basic_simps y' x'
  | _, _ => 0
  end.

(** Simpson's rule with the averaged end correction for an even number of
    samples. *)
Definition simps_ref (y x : list R) : R :=
  if Nat.even (length y) then
    let n := length y in
    let last_dx := nth (n - 1) x 0 - nth (n - 2) x 0 in
    let first_dx := nth 1 x 0 - nth 0 x 0 in
    (0.5 * last_dx * (nth (n - 1) y 0 + nth (n - 2) y 0)
     + 0.5 * first_dx * (nth 1 y 0 + nth 0 y 0)) / 2
    + (basic_simps y x + basic_simps (tl y) (tl x)) / 2
  else basic_simps y x.

(** A four-sample profile and model instances built on it. *)
Definition knots4 : list R := [1; 2; 3; 4].

Definition profile4 (y : list R) : Spline :=
  InterpolatedUnivariateSpline knots4 y 3 Const.

Definition example_model (id : Z) : RSDModel :=
  mkRSDModel id true 300 (828 / 1000) (1 / 100)
             [[1; 0]; [0; 1]] [0; 0]
             [10] [-1; -0.5; 0.5; 1] knots4
             (profile4 [10; 20; 30; 40])
             (profile4 [0; 0; 0; 0])
             (profile4 [0; 0; 0; 0])
             (Some (profile4 [1; 1; 1; 1]))
             None None.

(** A solver that returns its starting point. *)
Definition fsolve_ref (f : R -> R) (x0 : R) : R := x0.

Definition flat4 : Spline := profile4 [0; 0; 0; 0].

(** A correlation profile sampled on the radii 2..5, and the example
    instance with it in place of its own: the radius axis of one profile file
    need not be that of the others. *)
Definition offset_profile : Spline :=
  InterpolatedUnivariateSpline [2; 3; 4; 5] [0; 1; 0; 0] 3 Const.

Definition offset_model (id : Z) : RSDModel :=
  mkRSDModel id true 300 (828 / 1000) (1 / 100)
             [[1; 0]; [0; 1]] [0; 0]
             [10] [-1; -0.5; 0.5; 1] knots4
             offset_profile
             (profile4 [0; 0; 0; 0])
             (profile4 [0; 0; 0; 0])
             (Some (profile4 [1; 1; 1; 1]))
             None None.

(** An instance with another data vector. *)
Definition with_datavec (self : RSDModel) (d : list R) : RSDModel :=
  mkRSDModel (model self) (full_fit self) (nmocks self) (s8norm self)
             (iaH self) (icov self) d (s_for_xi self) (mu_for_xi self)
             (r_for_delta self) (xi_r self) (delta_r self) (Delta_r self)
             (sv self) (vr self) (dvr self).

(** ** The constructor (rsdmodel.py, lines 17-127) *)

From Stdlib Require String.

Module Msg.
Import String.
Definition covariance_not_found : string := "Covariance matrix not found."%string.
End Msg.

(** What can end [__init__] early: [sys.exit] with its message, a failed
    matrix inversion, or one of the exceptions of [exn]. *)
Inductive init_exn : Type :=
| SystemExit (msg : String.string)
| LinAlgError
| Raised (e : exn).

Definition MI (A : Type) : Type := (init_exn + A)%type.

Definition bindI {A B : Type} (c : MI A) (k : A -> MI B) : MI B :=
  match c with
  | inl e => inl e
  | inr a => k a
  end.

Definition liftI {A : Type} (c : M A) : MI A :=
  match c with
  | inl e => inl (Raised e)
  | inr a => inr a
  end.

Notation "x <~ c ;; k" := (bindI c (fun x => k))
  (at level 61, c at next level, right associativity).

Definition Rleb (x y : R) : bool := if Rle_dec x y then true else false.

(** [data[:, -2]] and [data[-1, -2]]. *)
Definition column_neg2 (data : list (list R)) : M (list R) :=
  mapM (fun row =>
          if Nat.leb 2 (length row) then
            match nth_error row (length row - 2) with
            | Some v => ret v
            | None => raise IndexError
            end
          else raise IndexError)
       data.

Definition last_neg2 (data : list (list R)) : M R :=
  match data with
  | [] => raise IndexError
  | _ :: _ => item_neg2 data (length data - 1)
  end.

(** Indexing by a boolean array of the same length: [a[idx]]. *)
Fixpoint select {A : Type} (a : list A) (idx : list bool) : list A :=
  match a, idx with
  | x :: a', b :: idx' => if b then x :: select a' idx' else select a' idx'
  | _, _ => []
  end.

Definition mask {A : Type} (a : list A) (idx : list bool) : M (list A) :=
  if Nat.eqb (length a) (length idx) then ret (select a idx)
  else raise IndexError.

(** The parsed content of the files named by the constructor's arguments;
    [covmat] is [None] when [os.path.isfile] fails.  A table the constructor
    does not read for the model id is ignored. *)
Record InitFiles : Type := mkInitFiles {
  delta_r_table : list (list R);
  xi_r_table : list (list R);
  xi_smu_table : list (list R);
  covmat : option (list (list R));
  sv_table : list (list R);
  vr_table : list (list R)
}.

(** The keyword arguments [full_fit], [smin], [smax], [model], [const_sv]. *)
Record InitArgs : Type := mkInitArgs {
  arg_full_fit : Z;
  arg_smin : R;
  arg_smax : R;
  arg_model : Z;
  arg_const_sv : bool
}.

(** The attributes [__init__] sets that no method reads afterwards. *)
Record RSDAux : Type := mkRSDAux {
  aux_growth : R;
  aux_f : R;
  aux_cov : list (list R);
  aux_r_for_xi : list R;
  aux_r_for_sv : list R;
  aux_r_for_vr : option (list R);
  aux_xi0_s : list R;
  aux_xi2_s : list R
}.

Section Constructor.

Variable splev : nat -> list R -> list R -> R -> R.
Variable simps : list R -> list R -> R.

(** The collaborators of the constructor:
    [get_growth om_m s8 z] and [get_f om_m s8 z] are the methods of the
    [Cosmology] object built from [om_m] and [s8];
    [linalg_inv] is [np.linalg.inv], [None] for a singular matrix;
    [quad f a b] is [scipy.integrate.quad(f, a, b, full_output=1)[0]];
    [savgol_filter y w p] is [scipy.signal.savgol_filter(y, w, p)];
    [np_gradient y x] is [np.gradient(y, x)]. *)
Variable get_growth : R -> R -> R -> R.
Variable get_f : R -> R -> R -> R.
Variable linalg_inv : list (list R) -> option (list (list R)).
Variable quad : (R -> R) -> R -> R -> R.
Variable savgol_filter : list R -> nat -> nat -> list R.
Variable np_gradient : list R -> list R -> list R.

(** Lines 88-97: the velocity-dispersion profile, read for model ids 1
    and 3. *)
Definition init_sv (files : InitFiles) (args : InitArgs)
  : MI (option (list R * Spline)) :=
  if (arg_model args =? 1)%Z || (arg_model args =? 3)%Z then
    let data := sv_table files in
    r_for_sv <~ liftI (column 0 data) ;;
    sv <~ (if arg_const_sv args then inr (repeat 1 (length r_for_sv))
           else
             num <~ liftI (column_neg2 data) ;;
             den <~ liftI (last_neg2 data) ;;
             inr (savgol_filter (map (fun v => v / den) num) 3 1)) ;;
    inr (Some (r_for_sv, InterpolatedUnivariateSpline r_for_sv sv 3 Const))
  else inr None.

(** Lines 99-106: the radial velocity profile, read for model id 3. *)
Definition init_vr (files : InitFiles) (args : InitArgs)
  : MI (option (list R * Spline * Spline)) :=
  if (arg_model args =? 3)%Z then
    let data := vr_table files in
    r_for_vr <~ liftI (column 0 data) ;;
    vr <~ liftI (column_neg2 data) ;;
    let dvr := np_gradient vr r_for_vr in
    inr (Some (r_for_vr,
               InterpolatedUnivariateSpline r_for_vr vr 3 Const,
               InterpolatedUnivariateSpline r_for_vr dvr 3 Const))
  else inr None.

(** [__init__].  The failures followed are a missing covariance file, a
    singular covariance, the indexing of the tables and of the window mask,
    and the missing attribute of line 119; the spline constructors are the
    records above, so the properties of [init] below are stated of the
    instances it returns, or of what it can never return. *)
Definition init (files : InitFiles) (args : InitArgs) : MI (RSDModel * RSDAux) :=
  let full_fit := negb (arg_full_fit args =? 0)%Z in
  let om_m := 0.285 in
  let s8 := 0.828 in
  let nmocks := 300%Z in
  let eff_z := 0.57 in
  let growth := get_growth om_m s8 eff_z in
  let f := get_f om_m s8 eff_z in
  let s8norm := s8 * growth in
  let eofz := sqrt (om_m * (1 + eff_z) ^ 3 + 1 - om_m) in
  let iaH := (1 + eff_z) / (100 * eofz) in
  (* read covariance matrix *)
  cov <~ match covmat files with
         | Some cov => inr cov
         | None => inl (SystemExit Msg.covariance_not_found)
         end ;;
  icov <~ match linalg_inv cov with
          | Some m => inr m
          | None => inl LinAlgError
          end ;;
  (* read real-space monopole *)
  r_for_xi <~ liftI (column 0 (xi_r_table files)) ;;
  xi_r_values <~ liftI (column_neg2 (xi_r_table files)) ;;
  let xi_r := InterpolatedUnivariateSpline r_for_xi xi_r_values 3 Const in
  (* read void-matter correlation function *)
  r_for_delta <~ liftI (column 0 (delta_r_table files)) ;;
  delta_r_values <~ liftI (column_neg2 (delta_r_table files)) ;;
  let delta_r := InterpolatedUnivariateSpline r_for_delta delta_r_values 3 Const in
  let integral :=
    map (fun ri => quad (fun x => spline_call splev delta_r x * x ^ 2) 0 ri)
        r_for_delta in
  let Delta_r_values := map2 (fun I ri => 3 * I / ri ^ 3) integral r_for_delta in
  let Delta_r := InterpolatedUnivariateSpline r_for_delta Delta_r_values 3 Const in
  sv_part <~ init_sv files args ;;
  vr_part <~ init_vr files args ;;
  (* read redshift-space correlation function *)
  corr <~ liftI (readCorrFile (xi_smu_table files)) ;;
  let '(s_for_xi, mu_for_xi, xi_smu_obs) := corr in
  let '(s, xi0_s) := _getMonopole splev simps s_for_xi mu_for_xi xi_smu_obs in
  let '(s, xi2_s) := _getQuadrupole splev simps s_for_xi mu_for_xi xi_smu_obs in
  (* restrict measured vectors to the desired fitting scales *)
  let idx := map (fun si => Rleb (arg_smin args) si && Rleb si (arg_smax args)) s in
  s_for_xi <~ liftI (mask s_for_xi idx) ;;
  r_for_xi <~ liftI (mask r_for_xi idx) ;;
  r_for_delta <~ liftI (mask r_for_delta idx) ;;
  self_r_for_sv <~ liftI (attr (option_map fst sv_part)) ;;
  r_for_sv <~ liftI (mask self_r_for_sv idx) ;;
  xi0_s <~ liftI (mask xi0_s idx) ;;
  xi2_s <~ liftI (mask xi2_s idx) ;;
  let datavec := if full_fit then xi0_s ++ xi2_s else xi2_s in
  inr (mkRSDModel (arg_model args) full_fit nmocks s8norm iaH icov datavec
                  s_for_xi mu_for_xi r_for_delta xi_r delta_r Delta_r
                  (option_map snd sv_part)
                  (option_map (fun p => snd (fst p)) vr_part)
                  (option_map snd vr_part),
       mkRSDAux growth f cov r_for_xi r_for_sv
                (option_map (fun p => fst (fst p)) vr_part) xi0_s xi2_s).

End Constructor.

(** Reference collaborators, for constructing an instance. *)
Definition growth_ref (om_m s8 z : R) : R := 1.
Definition inv_ref (m : list (list R)) : option (list (list R)) := Some m.
Definition quad_ref (f : R -> R) (a b : R) : R := 0.
Definition savgol_ref (y : list R) (w p : nat) : list R := y.
Definition gradient_ref (y x : list R) : list R := map (fun _ => 0) y.

(** Four-row profile tables, and a correlation table on a four-by-four grid
    covering the separations 1..4. *)
Definition profile_table : list (list R) :=
  [[1; 10; 0]; [2; 20; 0]; [3; 30; 0]; [4; 40; 0]].


(** ** Specification-side predicates *)

(** Strictly inside the flat-prior box, with and without [sigma_v]. *)
Definition in_prior3 (fs8 sigma_v epsilon : R) : Prop :=
  (0.1 < fs8 /\ fs8 < 2.0) /\ (1 < sigma_v /\ sigma_v < 500)
  /\ (0.8 < epsilon /\ epsilon < 1.2).

Definition in_prior2 (fs8 epsilon : R) : Prop :=
  (0.1 < fs8 /\ fs8 < 2.0) /\ (0.8 < epsilon /\ epsilon < 1.2).

(** At or outside one of the bounds. *)
Definition off_prior3 (fs8 sigma_v epsilon : R) : Prop :=
  fs8 <= 0.1 \/ 2.0 <= fs8 \/ sigma_v <= 1 \/ 500 <= sigma_v
  \/ epsilon <= 0.8 \/ 1.2 <= epsilon.

Definition off_prior2 (fs8 epsilon : R) : Prop :=
  fs8 <= 0.1 \/ 2.0 <= fs8 \/ epsilon <= 0.8 \/ 1.2 <= epsilon.

(** The samples [(xs, ys)] are reproduced by the cubic interpolant. *)
Definition interpolates (splev : nat -> list R -> list R -> R -> R)
    (xs : list R) : Prop :=
  forall ys i, length ys = length xs -> (i < length xs)%nat ->
               splev 3%nat xs ys (nth i xs 0) = nth i ys 0.

(** Two spline objects return the same value at every sampled radius. *)
Definition agree_on (splev : nat -> list R -> list R -> R -> R)
    (p q : Spline) (r : list R) : Prop :=
  forall ri, In ri r -> spline_call splev p ri = spline_call splev q ri.

(** Multipole extraction as the specification words it: a cubic interpolant
    of the per-mu samples, then Simpson integration of [mufunc / 2] and of
    [mufunc * (5/2) * (3 mu^2 - 1) / 2] on 1000 uniform points of [-1, 1]. *)
Definition multipoles_spec (splev : nat -> list R -> list R -> R -> R)
    (simps : list R -> list R -> R) (mu vals : list R) : R * R :=
  let mufunc := splev 3%nat mu vals in
  let grid := np_linspace (-1) 1 1000 in
  (simps (map (fun x => mufunc x / 2) grid) grid,
   simps (map (fun x => mufunc x * (5 / 2) * (3 * x ^ 2 - 1) / 2) grid) grid).

(** The quadratic form [d^T m d] of a vector and a matrix given by rows. *)
Definition quadratic_form (d : list R) (m : list (list R)) : R :=
  Rsum (map2 Rmult
             (map (fun j => Rsum (map2 (fun di row => di * nth j row 0) d m))
                  (seq 0 (length d)))
             d).

(** The entry [data[c, -2]] and the column [data[:, k]] of a table all of
    whose rows are long enough. *)
Definition cell (data : list (list R)) (c : nat) : R :=
  nth (length (nth c data []) - 2) (nth c data []) 0.

Definition col (k : nat) (data : list (list R)) : list R :=
  map (fun row => nth k row 0) data.

(** The grid entry [g[j, i]]. *)
Definition entry (g : list (list R)) (j i : nat) : R := nth i (nth j g []) 0.

(** A two-by-two correlation table, mu outermost, with an error column. *)
Definition example_table : list (list R) :=
  [[1; 0.1; 5; 0]; [2; 0.1; 6; 0]; [1; 0.2; 7; 0]; [2; 0.2; 8; 0]].

(** The same grid listed as bare [(s, mu, xi)] triples. *)
Definition triples_table : list (list R) :=
  [[1; 0.1; 5]; [2; 0.1; 6]; [1; 0.2; 7]; [2; 0.2; 8]].

(** The tables [np.genfromtxt] parses into a two-dimensional array: at least
    two rows, each of the same number [ncols >= 2] of fields.  (A file of one
    row, or of one column, parses into a one-dimensional array, on which
    [data[:, 0]] raises.) *)
Definition array2d (ncols : nat) (data : list (list R)) : Prop :=
  (2 <= length data)%nat /\ (2 <= ncols)%nat
  /\ Forall (fun row => length row = ncols) data.

(** Every row of the table has the two columns [readCorrFile] reads. *)
Definition wide (data : list (list R)) : Prop :=
  Forall (fun row => (2 <= length row)%nat) data.

(** A grid of [ns] rows of [nmu] entries. *)
Definition shaped (ns nmu : nat) (g : list (list R)) : Prop :=
  length g = ns /\ forall j, (j < ns)%nat -> length (nth j g []) = nmu.

(** The factor by which the rescaling step stretches every radius. *)
Definition stretch (alpha_perp alpha_para : R) : R :=
  np_trapz
    (map (fun m => alpha_para *
                   sqrt (1 + (1 - m ^ 2) * (alpha_perp ^ 2 / alpha_para ^ 2 - 1)))
         (np_linspace 0 1 100))
    (np_linspace 0 1 100).

Arguments stretch : simpl never.

(** The true separation of lines 271-273. *)
Definition true_s_of (alpha_perp alpha_para s mu : R) : R :=
  sqrt ((s * mu * alpha_para) ^ 2 + (s * sqrt (1 - mu ^ 2) * alpha_perp) ^ 2).

(** The number of parameters [log_prior] unpacks. *)
Definition prior_arity (self : RSDModel) : nat :=
  if (model self =? 1)%Z || (model self =? 3)%Z then 3%nat else 2%nat.

(** The length of the model vector [log_likelihood] compares with
    [datavec]. *)
Definition modelvec_length (self : RSDModel) : nat :=
  if full_fit self then (2 * length (s_for_xi self))%nat
  else length (s_for_xi self).

(** The table that lists a grid with [mu] outermost: one row
    [s, mu, xi, error] per cell. *)
Definition table_of_grid (s mu : list R) (g : list (list R)) : list (list R) :=
  flat_map (fun i => map (fun j => [nth j s 0; nth i mu 0; entry g j i; 0])
                         (seq 0 (length s)))
           (seq 0 (length mu)).

(** The correlation grid [xi(s, mu) = s * mu] on four separations and four
    angle cosines, its table, and the files and arguments of an example
    construction. *)
Definition grid4 : list (list R) :=
  map (fun si => map (fun m => si * m) [-1; -0.5; 0.5; 1]) knots4.

Definition grid_table : list (list R) :=
  table_of_grid knots4 [-1; -0.5; 0.5; 1] grid4.

Definition identity (n : nat) : list (list R) :=
  map (fun i => map (fun j => if Nat.eqb i j then 1 else 0) (seq 0 n)) (seq 0 n).

Definition example_files : InitFiles :=
  mkInitFiles profile_table profile_table grid_table
              (Some (identity 8)) profile_table profile_table.

Definition example_args (id : Z) : InitArgs := mkInitArgs 1 0 100 id false.

(** * Properties *)

(** *** The prior *)

Lemma ltb_true (x y : R) : ltb x y = true <-> x < y.
Proof. unfold ltb. destruct (Rlt_dec x y); split; intros; try easy. Qed.

Lemma ltb_false (x y : R) : ltb x y = false <-> y <= x.
Proof.
  unfold ltb. destruct (Rlt_dec x y); split; intros; try easy; lra.
Qed.

Ltac eval_ltb :=
  repeat match goal with
         | |- context [ltb ?a ?b] =>
             first [ rewrite (proj2 (ltb_true a b)) by lra
                   | rewrite (proj2 (ltb_false a b)) by lra ]
         end.

Lemma prior3_cases (fs8 sigma_v epsilon : R) :
  (in_prior3 fs8 sigma_v epsilon /\
   ltb 0.1 fs8 && ltb fs8 2.0 && ltb 1 sigma_v && ltb sigma_v 500
   && ltb 0.8 epsilon && ltb epsilon 1.2 = true)
  \/ (off_prior3 fs8 sigma_v epsilon /\
      ltb 0.1 fs8 && ltb fs8 2.0 && ltb 1 sigma_v && ltb sigma_v 500
      && ltb 0.8 epsilon && ltb epsilon 1.2 = false).
Proof.
  unfold in_prior3, off_prior3, ltb.
  repeat match goal with
         | |- context [Rlt_dec ?a ?b] => destruct (Rlt_dec a b)
         end; simpl;
    first [ left; split; [ lra | reflexivity ]
          | right; split; [ lra | reflexivity ] ].
Qed.

Lemma prior2_cases (fs8 epsilon : R) :
  (in_prior2 fs8 epsilon /\
   ltb 0.1 fs8 && ltb fs8 2.0 && ltb 0.8 epsilon && ltb epsilon 1.2 = true)
  \/ (off_prior2 fs8 epsilon /\
      ltb 0.1 fs8 && ltb fs8 2.0 && ltb 0.8 epsilon && ltb epsilon 1.2 = false).
Proof.
  unfold in_prior2, off_prior2, ltb.
  repeat match goal with
         | |- context [Rlt_dec ?a ?b] => destruct (Rlt_dec a b)
         end; simpl;
    first [ left; split; [ lra | reflexivity ]
          | right; split; [ lra | reflexivity ] ].
Qed.

Lemma in_off_prior3 (a b c : R) : in_prior3 a b c -> off_prior3 a b c -> False.
Proof. unfold in_prior3, off_prior3. lra. Qed.

Lemma in_off_prior2 (a c : R) : in_prior2 a c -> off_prior2 a c -> False.
Proof. unfold in_prior2, off_prior2. lra. Qed.

(** C4. [log_prior] returns exactly 0.0 if and only if every parameter lies
    strictly inside its flat-prior bounds, and negative infinity as soon as
    one parameter is at or outside a bound; [sigma_v] is bounded for model
    ids 1 and 3 only. *)
Theorem log_prior_flat_box (self : RSDModel) (fs8 sigma_v epsilon : R) :
  ((model self = 1 \/ model self = 3)%Z ->
   (log_prior self [fs8; sigma_v; epsilon] = ret (Fin 0.0)
    <-> in_prior3 fs8 sigma_v epsilon)
   /\ (off_prior3 fs8 sigma_v epsilon ->
       log_prior self [fs8; sigma_v; epsilon] = ret NegInf))
  /\ ((model self <> 1 /\ model self <> 3)%Z ->
      (log_prior self [fs8; epsilon] = ret (Fin 0.0) <-> in_prior2 fs8 epsilon)
      /\ (off_prior2 fs8 epsilon ->
          log_prior self [fs8; epsilon] = ret NegInf)).
Proof.
  split.
  - intros Hm.
    assert (Hsel : ((model self =? 1)%Z || (model self =? 3)%Z) = true).
    { destruct Hm as [-> | ->]; reflexivity. }
    unfold log_prior. rewrite Hsel. cbn [unpack3 bind ret].
    destruct (prior3_cases fs8 sigma_v epsilon) as [[Hin ->] | [Hoff ->]].
    + split; [ split; [ intros _; exact Hin | reflexivity ] | ].
      intros Hoff. destruct (in_off_prior3 _ _ _ Hin Hoff).
    + split; [ split | reflexivity ].
      * intros H. discriminate H.
      * intros Hin. destruct (in_off_prior3 _ _ _ Hin Hoff).
  - intros [H1 H3].
    assert (Hsel : ((model self =? 1)%Z || (model self =? 3)%Z) = false).
    { apply orb_false_iff. split; apply Z.eqb_neq; assumption. }
    unfold log_prior. rewrite Hsel. cbn [unpack2 bind ret].
    destruct (prior2_cases fs8 epsilon) as [[Hin ->] | [Hoff ->]].
    + split; [ split; [ intros _; exact Hin | reflexivity ] | ].
      intros Hoff. destruct (in_off_prior2 _ _ Hin Hoff).
    + split; [ split | reflexivity ].
      * intros H. discriminate H.
      * intros Hin. destruct (in_off_prior2 _ _ Hin Hoff).
Qed.

(** At the lower [fs8] bound of a model-1 instance the prior rejects; for a
    model-2 instance an interior point is accepted. *)
Lemma log_prior_flat_box_witness :
  log_prior (example_model 1) [0.1; 300; 1] = ret NegInf
  /\ in_prior2 0.5 1.
Proof.
  split.
  - refine (proj2 (proj1 (log_prior_flat_box (example_model 1) 0.1 300 1) _) _).
    + left. reflexivity.
    + unfold off_prior3. lra.
  - refine (proj1 (proj1 (proj2 (log_prior_flat_box (example_model 2) 0.5 0 1) _)) _).
    + split; discriminate.
    + unfold log_prior. cbn. eval_ltb. reflexivity.
Defined.

(** *** The model-3 path of [log_likelihood] *)

Section Model3.

Variable splev : nat -> list R -> list R -> R -> R.
Variable simps : list R -> list R -> R.

(** C1. With model id 3, [log_likelihood] never reaches a theory evaluator:
    it binds two parameters only, so a vector of any other length fails to
    unpack, and a two-element vector leaves [sigma_v] unbound when the
    arguments of [model1_theory] are read.  No branch names
    [model3_theory]. *)
Theorem log_likelihood_model3_no_evaluator (self : RSDModel) (theta : list R) :
  model self = 3%Z ->
  predicted_multipoles splev simps self theta
  = raise (if Nat.eqb (length theta) 2 then UnboundLocalError else ValueError)
  /\ log_likelihood splev simps self theta
     = raise (if Nat.eqb (length theta) 2 then UnboundLocalError else ValueError).
Proof.
  intros Hm.
  assert (H : predicted_multipoles splev simps self theta
              = raise (if Nat.eqb (length theta) 2
                       then UnboundLocalError else ValueError)).
  { unfold predicted_multipoles, unpack_theta. rewrite Hm.
    destruct theta as [| a [| b [| c t]]]; reflexivity. }
  split; [ exact H | ].
  unfold log_likelihood. rewrite H. reflexivity.
Qed.

(** C2. With model id 3 and the three parameters the variant declares,
    [log_likelihood] raises [ValueError] at [fs8, epsilon = theta]. *)
Theorem log_likelihood_model3_three_params (self : RSDModel)
    (fs8 sigma_v epsilon : R) :
  model self = 3%Z ->
  log_likelihood splev simps self [fs8; sigma_v; epsilon] = raise ValueError.
Proof.
  intros Hm. unfold log_likelihood, predicted_multipoles, unpack_theta.
  rewrite Hm. reflexivity.
Qed.

End Model3.

Lemma log_likelihood_model3_no_evaluator_witness :
  log_likelihood splev_ref simps_ref (example_model 3) [0.5; 1]
  = raise UnboundLocalError.
Proof.
  exact (proj2 (log_likelihood_model3_no_evaluator
                  splev_ref simps_ref (example_model 3) [0.5; 1] eq_refl)).
Defined.

Lemma log_likelihood_model3_three_params_witness :
  log_likelihood splev_ref simps_ref (example_model 3) [0.5; 300; 1]
  = raise ValueError.
Proof.
  exact (log_likelihood_model3_three_params
           splev_ref simps_ref (example_model 3) 0.5 300 1 eq_refl).
Defined.

(** *** The sampler callback *)

(** C9. When the prior is finite the callback returns prior plus likelihood,
    having called both methods; when the prior is negative infinity it
    returns negative infinity and the only call made is the one to
    [log_prior]. *)
Theorem log_probability_short_circuit (mdl : ModelObject) (theta : list R)
    (tr : list call) :
  (forall p ll,
      obj_log_prior mdl theta = ret (Fin p) ->
      obj_log_likelihood mdl theta = ret ll ->
      log_probability mdl theta tr
      = (ret (Fin (p + ll)), tr ++ [CallLogPrior theta; CallLogLikelihood theta]))
  /\ (obj_log_prior mdl theta = ret NegInf ->
      log_probability mdl theta tr = (ret NegInf, tr ++ [CallLogPrior theta])).
Proof.
  split.
  - intros p ll Hp Hl.
    unfold log_probability, run_bind, invoke. rewrite Hp. cbn.
    rewrite Hl. cbn. rewrite <- app_assoc. reflexivity.
  - intros Hp.
    unfold log_probability, run_bind, invoke. rewrite Hp. reflexivity.
Qed.

Lemma log_probability_short_circuit_witness :
  log_probability (rsd_object splev_ref simps_ref (example_model 1))
                  [0.1; 300; 1] []
  = (ret NegInf, [CallLogPrior [0.1; 300; 1]]).
Proof.
  refine (proj2 (log_probability_short_circuit
                   (rsd_object splev_ref simps_ref (example_model 1))
                   [0.1; 300; 1] []) _).
  cbn. unfold log_prior. cbn. eval_ltb. reflexivity.
Defined.

(** *** The rescaling step *)

Lemma trapz_const (c : R) (xs : list R) :
  np_trapz (map (fun _ => c) xs) xs = c * (last xs 0 - hd 0 xs).
Proof.
  induction xs as [| x0 [| x1 t] IH].
  - simpl. ring.
  - simpl. ring.
  - change (np_trapz (map (fun _ => c) (x0 :: x1 :: t)) (x0 :: x1 :: t))
      with ((x1 - x0) * (c + c) / 2 + np_trapz (map (fun _ => c) (x1 :: t)) (x1 :: t)).
    rewrite IH.
    change (last (x0 :: x1 :: t) 0) with (last (x1 :: t) 0).
    simpl hd. field.
Qed.

Lemma last_map_seq (f : nat -> R) (n : nat) (d : R) :
  last (map f (seq 0 (S n))) d = f n.
Proof.
  rewrite seq_S, map_app. simpl. apply last_last.
Qed.

Lemma linspace_hd (a b : R) (n : nat) : hd 0 (np_linspace a b (S n)) = a.
Proof. unfold np_linspace. simpl. ring. Qed.

Lemma linspace_last (a b : R) (n : nat) :
  last (np_linspace a b (S (S n))) 0 = b.
Proof.
  unfold np_linspace. rewrite last_map_seq.
  replace (S (S n) - 1)%nat with (S n) by lia.
  field. apply not_0_INR. discriminate.
Qed.

Lemma rescaled_r_identity (r : list R) : rescaled_r 1 1 r = r.
Proof.
  unfold rescaled_r.
  rewrite <- (map_id r) at 2.
  apply map_ext. intros ri.
  rewrite (map_ext _ (fun _ => ri)).
  - rewrite trapz_const.
    change 100%nat with (S (S 98)).
    rewrite linspace_hd, linspace_last. ring.
  - intros m.
    replace (1 ^ 2 / 1 ^ 2 - 1) with 0 by field.
    rewrite Rmult_0_r, Rplus_0_r, sqrt_1. ring.
Qed.

Lemma increasing_tail (a : R) (l : list R) : increasing (a :: l) -> increasing l.
Proof. destruct l; simpl; tauto. Qed.

Lemma increasing_hd_le (l : list R) (x : R) :
  increasing l -> In x l -> hd 0 l <= x.
Proof.
  induction l as [| a [| b t] IH]; intros Hinc Hin.
  - destruct Hin.
  - destruct Hin as [<- | []]. simpl. lra.
  - destruct Hin as [<- | Hin]; [ simpl; lra | ].
    destruct Hinc as [Hab Hinc].
    specialize (IH Hinc Hin). simpl in *. lra.
Qed.

Lemma increasing_le_last (l : list R) (x : R) :
  increasing l -> In x l -> x <= last l 0.
Proof.
  revert x.
  induction l as [| a [| b t] IH]; intros x Hinc Hin.
  - destruct Hin.
  - destruct Hin as [<- | []]. simpl. lra.
  - change (last (a :: b :: t) 0) with (last (b :: t) 0).
    destruct Hinc as [Hab Hinc].
    destruct Hin as [<- | Hin].
    + assert (H := IH b Hinc (or_introl eq_refl)). lra.
    + exact (IH x Hinc Hin).
Qed.

Lemma clamp_inside (lo hi x : R) : lo <= x -> x <= hi -> clamp lo hi x = x.
Proof.
  intros H1 H2. unfold clamp.
  destruct (Rlt_dec x lo); [ lra | ].
  destruct (Rlt_dec hi x); [ lra | reflexivity ].
Qed.

Section Rescaling.

Variable splev : nat -> list R -> list R -> R -> R.

(** An interpolant rebuilt on the identically rescaled axis returns the
    original's value at every sampled radius. *)
Lemma rebuilt_agrees (r : list R) (orig : Spline) (ext : ext_mode) :
  increasing r -> interpolates splev r ->
  agree_on splev
    (InterpolatedUnivariateSpline (rescaled_r 1 1 r)
                                  (map (spline_call splev orig) r) 3 ext)
    orig r.
Proof.
  intros Hinc Hint ri Hin.
  rewrite rescaled_r_identity.
  destruct (In_nth _ _ 0 Hin) as [i [Hi Hnth]].
  assert (Hval : splev 3%nat r (map (spline_call splev orig) r) ri
                 = spline_call splev orig ri).
  { rewrite <- Hnth. rewrite Hint by (rewrite ?length_map; auto).
    rewrite (nth_indep _ 0 (spline_call splev orig 0))
      by (rewrite length_map; exact Hi).
    apply map_nth. }
  unfold spline_call at 1. destruct ext; cbn.
  - exact Hval.
  - rewrite clamp_inside.
    + exact Hval.
    + apply increasing_hd_le; assumption.
    + apply increasing_le_last; assumption.
Qed.

(** C7 (amended). With [alpha_perp = alpha_para = 1] the rescaled axis is
    the sampled axis itself, and on at least four strictly increasing radii
    every interpolant the three evaluators rebuild returns, at every sampled
    radius, the value of the interpolant it was rebuilt from. *)
Theorem identity_rescaling (self : RSDModel) :
  (4 <= length (r_for_delta self))%nat ->
  increasing (r_for_delta self) ->
  interpolates splev (r_for_delta self) ->
  rescaled_r 1 1 (r_for_delta self) = r_for_delta self
  /\ (forall self_sv, sv self = Some self_sv ->
      exists p1 p2 p3 p4,
        model1_profiles splev self 1 1 = ret (p1, p2, p3, p4)
        /\ agree_on splev p1 (xi_r self) (r_for_delta self)
        /\ agree_on splev p2 (delta_r self) (r_for_delta self)
        /\ agree_on splev p3 (Delta_r self) (r_for_delta self)
        /\ agree_on splev p4 self_sv (r_for_delta self))
  /\ (exists p1 p2 p3,
        model2_profiles splev self 1 1 = (p1, p2, p3)
        /\ agree_on splev p1 (xi_r self) (r_for_delta self)
        /\ agree_on splev p2 (delta_r self) (r_for_delta self)
        /\ agree_on splev p3 (Delta_r self) (r_for_delta self))
  /\ (forall self_sv self_vr self_dvr,
        sv self = Some self_sv -> vr self = Some self_vr ->
        dvr self = Some self_dvr ->
        exists p1 p2 p3 p4 p5 p6,
          model3_profiles splev self 1 1 = ret (p1, p2, p3, p4, p5, p6)
          /\ agree_on splev p1 (xi_r self) (r_for_delta self)
          /\ agree_on splev p2 (delta_r self) (r_for_delta self)
          /\ agree_on splev p3 (Delta_r self) (r_for_delta self)
          /\ agree_on splev p4 self_vr (r_for_delta self)
          /\ agree_on splev p5 self_dvr (r_for_delta self)
          /\ agree_on splev p6 self_sv (r_for_delta self)).
Proof.
  intros _ Hinc Hint.
  split; [ apply rescaled_r_identity | ].
  split; [ | split ].
  - intros self_sv Hsv. unfold model1_profiles. rewrite Hsv. cbn [attr bind ret].
    do 4 eexists. split; [ reflexivity | ].
    repeat split; apply rebuilt_agrees; assumption.
  - unfold model2_profiles.
    do 3 eexists. split; [ reflexivity | ].
    repeat split; apply rebuilt_agrees; assumption.
  - intros self_sv self_vr self_dvr Hsv Hvr Hdvr.
    unfold model3_profiles. rewrite Hsv, Hvr, Hdvr. cbn [attr bind ret].
    do 6 eexists. split; [ reflexivity | ].
    repeat split; apply rebuilt_agrees; assumption.
Qed.

End Rescaling.

Lemma knots4_increasing : increasing knots4.
Proof. unfold knots4. simpl. lra. Qed.

Lemma lagrange_interpolates_knots4 : interpolates splev_ref knots4.
Proof.
  intros ys i Hlen Hi.
  destruct ys as [| y0 [| y1 [| y2 [| y3 [| y4 t]]]]]; try discriminate Hlen.
  unfold knots4 in *. simpl in Hi.
  destruct i as [| [| [| [| i]]]]; try lia;
    unfold splev_ref, lagrange, Rsum; simpl; field.
Qed.

Lemma identity_rescaling_witness :
  rescaled_r 1 1 (r_for_delta (example_model 1)) = r_for_delta (example_model 1).
Proof.
  refine (proj1 (identity_rescaling splev_ref (example_model 1)
                   _ knots4_increasing lagrange_interpolates_knots4)).
  simpl. lia.
Defined.

Lemma clamp_below (lo hi x : R) : x < lo -> clamp lo hi x = lo.
Proof.
  intros H. unfold clamp. destruct (Rlt_dec x lo); [ reflexivity | lra ].
Qed.

(** The correlation profile sampled on the radii 2..5, read at the radii
    1..4 of the other profiles: the first radius lies below its range and
    receives the boundary value. *)
Lemma offset_samples :
  map (spline_call splev_ref offset_profile) knots4 = [0; 0; 1; 0].
Proof.
  unfold knots4, offset_profile, spline_call, splev_ref. cbn.
  rewrite (clamp_below 2 5 1) by lra.
  rewrite !clamp_inside by lra.
  unfold lagrange, Rsum. simpl.
  repeat f_equal; field.
Qed.

Lemma offset_rebuilt_value (ext : ext_mode) :
  spline_call splev_ref
    (InterpolatedUnivariateSpline
       (rescaled_r 1 1 knots4)
       (map (spline_call splev_ref offset_profile) knots4) 3 ext)
    (5 / 2)
  = 9 / 16.
Proof.
  rewrite rescaled_r_identity, offset_samples.
  unfold knots4, spline_call, splev_ref. destruct ext; cbn.
  - unfold lagrange, Rsum. simpl. field.
  - rewrite clamp_inside by lra. unfold lagrange, Rsum. simpl. field.
Qed.

Lemma offset_original_value :
  spline_call splev_ref offset_profile (5 / 2) = 15 / 16.
Proof.
  unfold offset_profile, spline_call, splev_ref. cbn.
  rewrite clamp_inside by lra.
  unfold lagrange, Rsum. simpl. field.
Qed.

(** C7 as stated fails between the sampled radii: with the correlation
    profile sampled on the radii 2..5 and the other profiles on 1..4, the
    interpolant rebuilt at [alpha_perp = alpha_para = 1] takes the value 9/16
    at radius 5/2, inside both ranges, where the original takes 15/16. *)
Lemma identity_rescaling_counterexample :
  let self := offset_model 1 in
  r_for_delta self = [1; 2; 3; 4]
  /\ sp_x (xi_r self) = [2; 3; 4; 5]
  /\ increasing (r_for_delta self)
  /\ interpolates splev_ref (r_for_delta self)
  /\ exists p1 p2 p3 p4,
       model1_profiles splev_ref self 1 1 = ret (p1, p2, p3, p4)
       /\ spline_call splev_ref p1 (5 / 2) = 9 / 16
       /\ spline_call splev_ref (xi_r self) (5 / 2) = 15 / 16
       /\ spline_call splev_ref p1 (5 / 2)
          <> spline_call splev_ref (xi_r self) (5 / 2).
Proof.
  cbv zeta.
  split; [ reflexivity | ]. split; [ reflexivity | ].
  split; [ exact knots4_increasing | ].
  split; [ exact lagrange_interpolates_knots4 | ].
  unfold model1_profiles.
  change (sv (offset_model 1)) with (Some (profile4 [1; 1; 1; 1])).
  cbn [attr bind ret].
  change (r_for_delta (offset_model 1)) with knots4.
  change (xi_r (offset_model 1)) with offset_profile.
  do 4 eexists. split; [ reflexivity | ].
  rewrite offset_rebuilt_value, offset_original_value.
  repeat split. lra.
Qed.

(** *** Extrapolation policy of the rebuilt interpolants *)

(** C5. In each of the three evaluators the rebuilt real-space correlation
    is constructed without [ext=3] and so continues its end polynomials
    outside the sampled range; every other rebuilt profile holds its boundary
    value. *)
Theorem rescaled_xi_r_extrapolates
    (splev : nat -> list R -> list R -> R -> R) (self : RSDModel)
    (alpha_perp alpha_para : R) :
  (forall p1 p2 p3 p4,
      model1_profiles splev self alpha_perp alpha_para = ret (p1, p2, p3, p4) ->
      sp_ext p1 = Extrapolate
      /\ sp_ext p2 = Const /\ sp_ext p3 = Const /\ sp_ext p4 = Const)
  /\ (forall p1 p2 p3,
         model2_profiles splev self alpha_perp alpha_para = (p1, p2, p3) ->
         sp_ext p1 = Extrapolate /\ sp_ext p2 = Const /\ sp_ext p3 = Const)
  /\ (forall p1 p2 p3 p4 p5 p6,
         model3_profiles splev self alpha_perp alpha_para
         = ret (p1, p2, p3, p4, p5, p6) ->
         sp_ext p1 = Extrapolate
         /\ sp_ext p2 = Const /\ sp_ext p3 = Const /\ sp_ext p4 = Const
         /\ sp_ext p5 = Const /\ sp_ext p6 = Const).
Proof.
  split; [ | split ].
  - intros p1 p2 p3 p4. unfold model1_profiles.
    destruct (sv self); cbn [attr bind ret raise]; intros H;
      [ | discriminate H ].
    injection H as <- <- <- <-. repeat split.
  - intros p1 p2 p3. unfold model2_profiles. intros H.
    injection H as <- <- <-. repeat split.
  - intros p1 p2 p3 p4 p5 p6. unfold model3_profiles.
    destruct (vr self); cbn [attr bind ret raise]; intros H;
      [ | discriminate H ].
    destruct (dvr self); cbn [attr bind ret raise] in H; [ | discriminate H ].
    destruct (sv self); cbn [attr bind ret raise] in H; [ | discriminate H ].
    injection H as <- <- <- <- <- <-. repeat split.
Qed.

Lemma profile4_samples (y0 y1 y2 y3 : R) :
  map (spline_call splev_ref (profile4 [y0; y1; y2; y3])) knots4
  = [y0; y1; y2; y3].
Proof.
  unfold knots4, profile4, spline_call, splev_ref. cbn.
  rewrite !clamp_inside by lra.
  unfold lagrange, Rsum. simpl.
  repeat f_equal; field.
Qed.

(** Beyond the last sample ([r = 5 > 4]) the rebuilt correlation of the
    example model continues the interpolating polynomial (50), where the
    loaded profile holds its boundary value (40). *)
Lemma rescaled_xi_r_extrapolates_witness :
  exists p1 p2 p3,
    model2_profiles splev_ref (example_model 2) 1 1 = (p1, p2, p3)
    /\ sp_ext p1 = Extrapolate
    /\ spline_call splev_ref p1 5 = 50
    /\ spline_call splev_ref (xi_r (example_model 2)) 5 = 40.
Proof.
  do 3 eexists. split; [ reflexivity | ].
  split.
  - exact (proj1 (proj1 (proj2 (rescaled_xi_r_extrapolates
                                  splev_ref (example_model 2) 1 1))
                        _ _ _ eq_refl)).
  - split.
    + unfold spline_call at 1. cbn [sp_ext InterpolatedUnivariateSpline
                                     sp_x sp_y sp_k].
      rewrite rescaled_r_identity.
      change (r_for_delta (example_model 2)) with knots4.
      change (xi_r (example_model 2)) with (profile4 [10; 20; 30; 40]).
      rewrite profile4_samples.
      unfold splev_ref, lagrange, knots4, Rsum. simpl. field.
    + unfold spline_call, example_model, profile4, knots4, clamp. cbn.
      destruct (Rlt_dec 5 1); [ lra | ].
      destruct (Rlt_dec 4 5); [ | lra ].
      unfold splev_ref, lagrange, Rsum. simpl. field.
Defined.

(** *** Multipole extraction *)

Lemma increasing_nth (a : list R) (i : nat) :
  increasing a -> (S i < length a)%nat -> nth i a 0 < nth (S i) a 0.
Proof.
  revert i. induction a as [| x [| y t] IH]; intros i Hinc Hi.
  - simpl in Hi. lia.
  - simpl in Hi. lia.
  - destruct Hinc as [Hxy Hinc]. destruct i as [| i].
    + simpl. exact Hxy.
    + change (nth (S i) (x :: y :: t) 0) with (nth i (y :: t) 0).
      change (nth (S (S i)) (x :: y :: t) 0) with (nth (S i) (y :: t) 0).
      apply IH; [ exact Hinc | simpl in *; lia ].
Qed.

Lemma insert_idx_sorted (key : nat -> R) (n k : nat) :
  (forall i, (k <= i)%nat -> (S i < k + n)%nat -> key i <= key (S i)) ->
  fold_right (insert_idx key) [] (seq k n) = seq k n.
Proof.
  revert k. induction n as [| n IH]; intros k Hkey.
  - reflexivity.
  - simpl. rewrite IH by (intros i H1 H2; apply Hkey; lia).
    destruct n as [| n].
    + reflexivity.
    + simpl. destruct (Rle_dec (key k) (key (S k))) as [_ | Hn].
      * reflexivity.
      * exfalso. apply Hn. apply Hkey; lia.
Qed.

Lemma argsort_increasing (a : list R) :
  increasing a -> np_argsort a = seq 0 (length a).
Proof.
  intros Hinc. unfold np_argsort. apply insert_idx_sorted.
  intros i _ Hi. left. apply increasing_nth; [ exact Hinc | lia ].
Qed.

Lemma take_idx_all (a : list R) (n : nat) :
  length a = n -> take_idx a (seq 0 n) = a.
Proof.
  intros Hn. unfold take_idx.
  apply (nth_ext _ _ 0 0).
  - rewrite length_map, length_seq. symmetry. exact Hn.
  - intros i Hi. rewrite length_map, length_seq in Hi.
    rewrite (nth_indep _ 0 (nth 0 a 0)) by (rewrite length_map, length_seq; exact Hi).
    rewrite (map_nth (fun j => nth j a 0) (seq 0 n) 0%nat i).
    rewrite seq_nth by exact Hi. reflexivity.
Qed.

Lemma map2_map_l {A B C : Type} (f : B -> A -> C) (g : A -> B) (l : list A) :
  map2 f (map g l) l = map (fun x => f (g x) x) l.
Proof. induction l as [| x l IH]; simpl; [ | rewrite IH ]; reflexivity. Qed.

Section Multipoles.

Variable splev : nat -> list R -> list R -> R -> R.
Variable simps : list R -> list R -> R.

Lemma model3_multipoles_spec (mu vals : list R) :
  model3_multipoles splev simps mu vals = multipoles_spec splev simps mu vals.
Proof.
  unfold model3_multipoles, multipoles_spec, spline_call. cbn.
  rewrite map_map, map2_map_l. f_equal. f_equal.
  apply map_ext. intros x. field.
Qed.

Lemma model1_multipoles_sorted (mu vals : list R) :
  increasing mu -> length vals = length mu ->
  model1_multipoles splev simps mu vals = multipoles_spec splev simps mu vals.
Proof.
  intros Hinc Hlen. rewrite <- model3_multipoles_spec.
  unfold model1_multipoles, model3_multipoles.
  rewrite (argsort_increasing _ Hinc), !take_idx_all by auto. reflexivity.
Qed.

Lemma model2_multipoles_sorted (mu vals : list R) :
  increasing mu -> length vals = length mu ->
  model2_multipoles splev simps mu vals = multipoles_spec splev simps mu vals.
Proof.
  intros Hinc Hlen. rewrite <- model3_multipoles_spec.
  unfold model2_multipoles, model3_multipoles.
  rewrite (argsort_increasing _ Hinc), !take_idx_all by auto. reflexivity.
Qed.

(** C8. On samples whose angle cosines are strictly increasing, as the
    reader's always are, the reader's [_getMonopole] and [_getQuadrupole] and
    the reduction inside each theory evaluator return the same monopole and
    quadrupole, namely those of the interpolate-then-Simpson pattern. *)
Theorem multipole_extraction_consistent (s mu : list R) (xi_smu : list (list R)) :
  increasing mu ->
  Forall (fun row => length row = length mu) xi_smu ->
  snd (_getMonopole splev simps s mu xi_smu)
  = map (fun row => fst (multipoles_spec splev simps mu row)) xi_smu
  /\ snd (_getQuadrupole splev simps s mu xi_smu)
     = map (fun row => snd (multipoles_spec splev simps mu row)) xi_smu
  /\ Forall (fun row =>
               model1_multipoles splev simps mu row
               = multipoles_spec splev simps mu row
               /\ model2_multipoles splev simps mu row
                  = multipoles_spec splev simps mu row
               /\ model3_multipoles splev simps mu row
                  = multipoles_spec splev simps mu row)
            xi_smu.
Proof.
  intros Hinc Hrows. split; [ | split ].
  - unfold _getMonopole, multipoles_spec, spline_call. cbn.
    apply map_ext. intros row. rewrite map_map. reflexivity.
  - unfold _getQuadrupole, multipoles_spec, spline_call. cbn.
    apply map_ext. intros row. rewrite map2_map_l. f_equal.
    apply map_ext. intros x. field.
  - apply Forall_forall. intros row Hin.
    assert (Hlen := proj1 (Forall_forall _ _) Hrows row Hin). cbn in Hlen.
    repeat split.
    + apply model1_multipoles_sorted; assumption.
    + apply model2_multipoles_sorted; assumption.
    + apply model3_multipoles_spec.
Qed.

End Multipoles.

Lemma multipole_extraction_consistent_witness :
  snd (_getMonopole splev_ref simps_ref [10] [-1; -0.5; 0.5; 1] [[3; 2; 2; 3]])
  = [fst (model1_multipoles splev_ref simps_ref [-1; -0.5; 0.5; 1] [3; 2; 2; 3])].
Proof.
  assert (Hinc : increasing [-1; -0.5; 0.5; 1]) by (simpl; lra).
  assert (Hrows : Forall (fun row : list R => length row = 4%nat) [[3; 2; 2; 3]])
    by (constructor; [ reflexivity | constructor ]).
  destruct (multipole_extraction_consistent splev_ref simps_ref
              [10] [-1; -0.5; 0.5; 1] [[3; 2; 2; 3]] Hinc Hrows)
    as [Hmono [_ Hall]].
  rewrite Hmono.
  inversion Hall as [| row rest [H1 _] _]. subst.
  cbn [map]. rewrite H1. reflexivity.
Defined.

(** *** The likelihood *)

Lemma length_map2 {A B C : Type} (f : A -> B -> C) (a : list A) (b : list B) :
  length a = length b -> length (map2 f a b) = length a.
Proof.
  revert b. induction a as [| x a IH]; intros [| y b] H; simpl in *;
    try discriminate; [ reflexivity | ].
  f_equal. apply IH. lia.
Qed.

Lemma chi2_of_shapes (self : RSDModel) (modelvec : list R) :
  length modelvec = length (datavec self) ->
  length (icov self) = length (datavec self) ->
  length (hd [] (icov self)) = length (datavec self) ->
  chi2_of self modelvec
  = ret (quadratic_form (map2 Rminus modelvec (datavec self)) (icov self)).
Proof.
  intros Hv Hrows Hcols.
  assert (Hd : length (map2 Rminus modelvec (datavec self)) = length (datavec self)).
  { rewrite length_map2; assumption. }
  unfold chi2_of, np_sub. rewrite Hv, Nat.eqb_refl. cbn [bind ret].
  unfold np_dot_vm. rewrite Hd, Hrows, Nat.eqb_refl. cbn [bind ret].
  unfold np_dot_vv. rewrite length_map, length_seq, Hcols, Hd, Nat.eqb_refl.
  unfold quadratic_form. rewrite Hd. reflexivity.
Qed.

Lemma sub_self_zero (v : list R) : Forall (fun x => x = 0) (map2 Rminus v v).
Proof.
  induction v as [| x v IH]; simpl; constructor; [ ring | exact IH ].
Qed.

Lemma Rsum_map2_zero_r (t d : list R) :
  Forall (fun x => x = 0) d -> Rsum (map2 Rmult t d) = 0.
Proof.
  revert d. induction t as [| a t IH]; intros [| b d] H; try reflexivity.
  inversion H as [| ? ? Hb Hd]; subst.
  change (Rsum (map2 Rmult (a :: t) (0 :: d)))
    with (a * 0 + Rsum (map2 Rmult t d)).
  rewrite (IH d Hd). ring.
Qed.

Lemma quadratic_form_zero (v : list R) (m : list (list R)) :
  quadratic_form (map2 Rminus v v) m = 0.
Proof. unfold quadratic_form. apply Rsum_map2_zero_r, sub_self_zero. Qed.

Section Likelihood.

Variable splev : nat -> list R -> list R -> R -> R.
Variable simps : list R -> list R -> R.

(** Whenever the evaluator step returns, it returns one monopole and one
    quadrupole per fitted separation (the arrays [np.zeros(len(s))] the
    evaluators fill). *)
Lemma predicted_multipoles_lengths (self : RSDModel) (theta : list R)
    (xi0 xi2 : list R) :
  predicted_multipoles splev simps self theta = ret (xi0, xi2) ->
  length xi0 = length (s_for_xi self) /\ length xi2 = length (s_for_xi self).
Proof.
  unfold predicted_multipoles.
  destruct (unpack_theta self theta) as [e | [[fs8 sigma_v] epsilon]];
    cbn [bind]; [ discriminate | ].
  destruct ((model self =? 1)%Z || (model self =? 3)%Z).
  - destruct sigma_v as [sigma_v |]; cbn [local bind ret raise];
      [ | discriminate ].
    unfold model1_theory.
    destruct (model1_profiles splev self _ _) as [e | P];
      cbn [bind ret]; [ discriminate | ].
    intros H. injection H as <- <-. rewrite !length_map. split; reflexivity.
  - unfold model2_theory. cbn [ret].
    intros H. injection H as <- <-. rewrite !length_map. split; reflexivity.
Qed.

(** C3. Lines 154-161.  Once the evaluator has returned the multipoles
    [xi0], [xi2] for [theta], and the model vector has the shape of
    [datavec] and [icov], the value returned is
    [-(nmocks/2) ln(1 + chi2/(nmocks-1))] with [chi2] the quadratic form of
    [modelvec - datavec] in [icov], [modelvec] being monopole then quadrupole
    under [full_fit] and the quadrupole otherwise; when [modelvec] is
    [datavec], [chi2] and the log-likelihood are 0 whatever the entries of
    [icov]. *)
Theorem log_likelihood_student_t (self : RSDModel) (theta : list R)
    (xi0 xi2 : list R) :
  predicted_multipoles splev simps self theta = ret (xi0, xi2) ->
  let modelvec := if full_fit self then xi0 ++ xi2 else xi2 in
  let chi2 :=
    quadratic_form (map2 Rminus modelvec (datavec self)) (icov self) in
  length modelvec = length (datavec self) ->
  length (icov self) = length (datavec self) ->
  length (hd [] (icov self)) = length (datavec self) ->
  log_likelihood splev simps self theta
  = ret (- IZR (nmocks self) / 2 * ln (1 + chi2 / (IZR (nmocks self) - 1)))
  /\ (modelvec = datavec self ->
      chi2 = 0 /\ log_likelihood splev simps self theta = ret 0).
Proof.
  intros Hpred modelvec chi2 Hlen Hrows Hcols. subst modelvec chi2.
  assert (Hll : log_likelihood splev simps self theta
                = ret (- IZR (nmocks self) / 2
                       * ln (1 + quadratic_form
                                   (map2 Rminus
                                      (if full_fit self then xi0 ++ xi2 else xi2)
                                      (datavec self)) (icov self)
                                 / (IZR (nmocks self) - 1)))).
  { unfold log_likelihood. rewrite Hpred. cbn [bind ret]. unfold modelvec_of.
    rewrite (chi2_of_shapes self _ Hlen Hrows Hcols). reflexivity. }
  split; [ exact Hll | ].
  intros Heq. rewrite Hll, Heq, quadratic_form_zero.
  split; [ reflexivity | ].
  unfold ret. f_equal.
  replace (1 + 0 / (IZR (nmocks self) - 1)) with 1
    by (unfold Rdiv; rewrite Rmult_0_l; ring).
  rewrite ln_1. ring.
Qed.

End Likelihood.

(** The reference instance: four radii, four angle cosines, one separation,
    epsilon = 1. *)
Lemma example_predicted :
  exists xi0 xi2,
    predicted_multipoles splev_ref simps_ref (example_model 1) [0.5; 300; 1]
    = ret (xi0, xi2)
    /\ length xi0 = 1%nat /\ length xi2 = 1%nat.
Proof.
  assert (H : exists xi0 xi2,
             predicted_multipoles splev_ref simps_ref (example_model 1)
                                  [0.5; 300; 1] = ret (xi0, xi2)).
  { unfold predicted_multipoles, unpack_theta.
    cbn [model example_model Z.eqb Pos.eqb unpack3 bind ret orb local].
    unfold model1_theory, model1_profiles.
    cbn [sv example_model attr bind ret].
    do 2 eexists. reflexivity. }
  destruct H as [xi0 [xi2 H]]. exists xi0, xi2.
  split; [ exact H | ].
  exact (predicted_multipoles_lengths splev_ref simps_ref _ _ _ _ H).
Qed.

Lemma log_likelihood_student_t_witness :
  exists xi0 xi2,
    predicted_multipoles splev_ref simps_ref (example_model 1) [0.5; 300; 1]
    = ret (xi0, xi2)
    /\ log_likelihood splev_ref simps_ref (example_model 1) [0.5; 300; 1]
       = ret (- 300 / 2
              * ln (1 + quadratic_form (map2 Rminus (xi0 ++ xi2) [0; 0])
                                       [[1; 0]; [0; 1]]
                        / (300 - 1))).
Proof.
  destruct example_predicted as [xi0 [xi2 [Hpred [H0 H2]]]].
  exists xi0, xi2. split; [ exact Hpred | ].
  refine (proj1 (log_likelihood_student_t splev_ref simps_ref (example_model 1)
                   [0.5; 300; 1] xi0 xi2 Hpred _ eq_refl eq_refl)).
  cbn [full_fit example_model datavec]. rewrite length_app, H0, H2.
  reflexivity.
Defined.

(** *** The correlation-function reader *)

Lemma length_set_nth {A : Type} (l : list A) (k : nat) (v : A) :
  length (set_nth l k v) = length l.
Proof.
  revert k. induction l as [| x l IH]; intros [| k]; simpl; auto.
Qed.

Lemma nth_set_nth_eq {A : Type} (l : list A) (k : nat) (v d : A) :
  (k < length l)%nat -> nth k (set_nth l k v) d = v.
Proof.
  revert k. induction l as [| x l IH]; intros [| k] H; simpl in *;
    try lia; [ reflexivity | apply IH; lia ].
Qed.

Lemma nth_set_nth_neq {A : Type} (l : list A) (k k' : nat) (v d : A) :
  k <> k' -> nth k' (set_nth l k v) d = nth k' l d.
Proof.
  revert k k'. induction l as [| x l IH]; intros [| k] [| k'] H; simpl;
    try reflexivity; try lia.
  apply IH. lia.
Qed.

Lemma set2_length (g : list (list R)) (j i : nat) (v : R) :
  length (set2 g j i v) = length g.
Proof. unfold set2. apply length_set_nth. Qed.

Lemma set2_row_length (g : list (list R)) (j i j' : nat) (v : R) :
  length (nth j' (set2 g j i v) []) = length (nth j' g []).
Proof.
  unfold set2. destruct (Nat.eq_dec j j') as [<- | Hne].
  - destruct (Nat.lt_ge_cases j (length g)) as [Hlt | Hge].
    + rewrite nth_set_nth_eq by exact Hlt. apply length_set_nth.
    + rewrite !(nth_overflow _ _ Hge).
      rewrite nth_overflow; [ reflexivity | ].
      rewrite length_set_nth. exact Hge.
  - rewrite nth_set_nth_neq by exact Hne. reflexivity.
Qed.

Lemma entry_set2_same (g : list (list R)) (j i : nat) (v : R) :
  (j < length g)%nat -> (i < length (nth j g []))%nat ->
  entry (set2 g j i v) j i = v.
Proof.
  intros Hj Hi. unfold entry, set2.
  rewrite nth_set_nth_eq by exact Hj. apply nth_set_nth_eq. exact Hi.
Qed.

Lemma entry_set2_other (g : list (list R)) (j i j' i' : nat) (v : R) :
  j <> j' \/ i <> i' -> entry (set2 g j i v) j' i' = entry g j' i'.
Proof.
  intros Hne. unfold entry, set2.
  destruct (Nat.eq_dec j j') as [<- | Hj].
  - destruct Hne as [Hne | Hne]; [ contradiction | ].
    destruct (Nat.lt_ge_cases j (length g)) as [Hlt | Hge].
    + rewrite nth_set_nth_eq by exact Hlt. apply nth_set_nth_neq. exact Hne.
    + rewrite (nth_overflow (set_nth g j _) [])
        by (rewrite length_set_nth; exact Hge).
      rewrite (nth_overflow g [] Hge). reflexivity.
  - rewrite nth_set_nth_neq by exact Hj. reflexivity.
Qed.

Lemma increasing_cons (y : R) (l : list R) :
  (l <> [] -> y < hd 0 l) -> increasing l -> increasing (y :: l).
Proof.
  destruct l as [| z l]; intros Hhd Hinc; simpl; [ exact I | ].
  split; [ apply Hhd; discriminate | exact Hinc ].
Qed.

Lemma insert_unique_hd (x : R) (l : list R) :
  l <> [] ->
  hd 0 (insert_unique x l) = x \/ hd 0 (insert_unique x l) = hd 0 l.
Proof.
  destruct l as [| y l]; intros H; [ contradiction | ].
  simpl. destruct (Rlt_dec x y); [ left; reflexivity | ].
  destruct (Rlt_dec y x); right; reflexivity.
Qed.

Lemma insert_unique_increasing (x : R) (l : list R) :
  increasing l -> increasing (insert_unique x l).
Proof.
  induction l as [| y l IH]; intros Hinc.
  - exact I.
  - simpl. destruct (Rlt_dec x y) as [Hxy | Hxy].
    + split; assumption.
    + destruct (Rlt_dec y x) as [Hyx | Hyx]; [ | exact Hinc ].
      apply increasing_cons.
      * intros _. destruct l as [| z l]; [ simpl; exact Hyx | ].
        destruct (insert_unique_hd x (z :: l)) as [-> | ->];
          [ discriminate | exact Hyx | ].
        simpl. destruct Hinc as [Hyz _]. exact Hyz.
      * apply IH. exact (increasing_tail _ _ Hinc).
Qed.

Lemma np_unique_increasing (l : list R) : increasing (np_unique l).
Proof.
  induction l as [| x l IH]; simpl; [ exact I | ].
  apply insert_unique_increasing. exact IH.
Qed.

Lemma insert_unique_In (x z : R) (l : list R) :
  In z (insert_unique x l) <-> z = x \/ In z l.
Proof.
  induction l as [| y l IH]; simpl.
  - intuition.
  - destruct (Rlt_dec x y) as [Hxy | Hxy]; simpl; [ intuition | ].
    destruct (Rlt_dec y x) as [Hyx | Hyx]; simpl.
    + rewrite IH. intuition.
    + assert (x = y) by lra. subst. intuition.
Qed.

Lemma np_unique_In (z : R) (l : list R) : In z (np_unique l) <-> In z l.
Proof.
  induction l as [| x l IH]; simpl; [ reflexivity | ].
  rewrite insert_unique_In, IH. intuition.
Qed.

Lemma item_neg2_ok (data : list (list R)) (c : nat) :
  wide data -> (c < length data)%nat -> item_neg2 data c = ret (cell data c).
Proof.
  intros Hw Hc. unfold item_neg2, cell.
  rewrite (nth_error_nth' data [] Hc).
  assert (Hrow : (2 <= length (nth c data []))%nat).
  { exact (proj1 (Forall_forall _ _) Hw _ (nth_In data [] Hc)). }
  rewrite (proj2 (Nat.leb_le _ _) Hrow).
  rewrite (nth_error_nth' (nth c data []) 0) by lia. reflexivity.
Qed.

Lemma column_ok (k : nat) (data : list (list R)) :
  wide data -> (k < 2)%nat -> column k data = ret (col k data).
Proof.
  intros Hw Hk. unfold column, col.
  induction Hw as [| row data Hrow Hw IH]; [ reflexivity | ].
  cbn [mapM map]. rewrite (nth_error_nth' row 0) by lia.
  cbn [bind ret]. rewrite IH. reflexivity.
Qed.

Section ReaderLoops.

Variable data : list (list R).
Variables ns nmu : nat.
Hypothesis Hwide : wide data.

Lemma inner_loop (i : nat) (n : nat) :
  forall j0 g c,
    (j0 + n <= ns)%nat -> (i < nmu)%nat -> (c + n <= length data)%nat ->
    shaped ns nmu g ->
    exists g',
      foldM (fun j st1 =>
               v <- item_neg2 data (snd st1) ;;
               ret (set2 (fst st1) j i v, S (snd st1)))
            (seq j0 n) (g, c)
      = ret (g', (c + n)%nat)
      /\ shaped ns nmu g'
      /\ (forall j', (j0 <= j' < j0 + n)%nat ->
                     entry g' j' i = cell data (c + (j' - j0)))
      /\ (forall j' i', i' <> i \/ (j' < j0)%nat \/ (j0 + n <= j')%nat ->
                        entry g' j' i' = entry g j' i').
Proof.
  induction n as [| n IH]; intros j0 g c Hj Hi Hc Hg.
  - exists g. cbn [seq foldM]. rewrite Nat.add_0_r.
    repeat split; try apply Hg; intros; try lia; reflexivity.
  - cbn [seq foldM]. cbn [snd fst].
    rewrite (item_neg2_ok data c Hwide) by lia. cbn [bind ret].
    assert (Hg1 : shaped ns nmu (set2 g j0 i (cell data c))).
    { destruct Hg as [Hlen Hrow]. split.
      - rewrite set2_length. exact Hlen.
      - intros j Hjl. rewrite set2_row_length. apply Hrow. exact Hjl. }
    destruct (IH (S j0) (set2 g j0 i (cell data c)) (S c)) as
      [g' [Hrun [Hshape [Hin Hout]]]]; try lia; try assumption.
    exists g'. split; [ | split; [ exact Hshape | split ] ].
    + rewrite Hrun. f_equal. f_equal. lia.
    + intros j' Hj'. destruct (Nat.eq_dec j' j0) as [-> | Hne].
      * rewrite Hout by (right; left; lia).
        rewrite Nat.sub_diag, Nat.add_0_r.
        destruct Hg as [Hlen Hrow].
        apply entry_set2_same; [ lia | rewrite Hrow; lia ].
      * rewrite Hin by lia. f_equal. lia.
    + intros j' i' Hcond.
      rewrite Hout by (destruct Hcond as [H | [H | H]]; [ left | right; left | right; right ]; lia).
      apply entry_set2_other.
      destruct Hcond as [H | [H | H]]; [ right; auto | left; lia | left; lia ].
Qed.

Lemma outer_loop (m : nat) :
  forall i0 g c,
    (i0 + m <= nmu)%nat -> (c + m * ns <= length data)%nat -> shaped ns nmu g ->
    exists g',
      foldM (fun i st0 =>
               foldM (fun j st1 =>
                        v <- item_neg2 data (snd st1) ;;
                        ret (set2 (fst st1) j i v, S (snd st1)))
                     (seq 0 ns) st0)
            (seq i0 m) (g, c)
      = ret (g', (c + m * ns)%nat)
      /\ shaped ns nmu g'
      /\ (forall i' j', (i0 <= i' < i0 + m)%nat -> (j' < ns)%nat ->
                        entry g' j' i' = cell data (c + (i' - i0) * ns + j'))
      /\ (forall j' i', (i' < i0)%nat \/ (i0 + m <= i')%nat ->
                        entry g' j' i' = entry g j' i').
Proof.
  induction m as [| m IH]; intros i0 g c Hi Hc Hg.
  - exists g. cbn [seq foldM]. rewrite Nat.add_0_r.
    repeat split; try apply Hg; intros; try lia; reflexivity.
  - cbn [seq foldM].
    destruct (inner_loop i0 ns 0 g c) as [g1 [Hrun1 [Hg1 [Hin1 Hout1]]]];
      try lia; try assumption.
    rewrite Hrun1. cbn [bind ret].
    destruct (IH (S i0) g1 (c + ns)%nat) as [g' [Hrun [Hshape [Hin Hout]]]];
      try lia; try assumption.
    exists g'. split; [ | split; [ exact Hshape | split ] ].
    + rewrite Hrun. f_equal. f_equal. lia.
    + intros i' j' Hi' Hj'. destruct (Nat.eq_dec i' i0) as [-> | Hne].
      * rewrite Hout by (left; lia).
        rewrite Hin1 by lia.
        rewrite Nat.sub_diag, Nat.sub_0_r. f_equal. lia.
      * rewrite Hin by lia. f_equal.
        replace (i' - i0)%nat with (S (i' - S i0)) by lia. cbn [Nat.mul]. lia.
    + intros j' i' Hcond.
      rewrite Hout by lia.
      apply Hout1. left. lia.
Qed.

End ReaderLoops.

Lemma zeros2_shaped (n m : nat) : shaped n m (np_zeros2 n m).
Proof.
  unfold shaped, np_zeros2. split; [ apply repeat_length | ].
  intros j Hj.
  rewrite (nth_indep _ [] (repeat 0 m)) by (rewrite repeat_length; exact Hj).
  rewrite nth_repeat. apply repeat_length.
Qed.

Lemma shaped_Forall (n m : nat) (g : list (list R)) :
  shaped n m g -> Forall (fun row => length row = m) g.
Proof.
  intros [Hlen Hrow]. apply Forall_forall. intros row Hin.
  destruct (In_nth _ _ [] Hin) as [j [Hj <-]]. apply Hrow. lia.
Qed.

Lemma array2d_wide (ncols : nat) (data : list (list R)) :
  array2d ncols data -> wide data.
Proof.
  intros [_ [Hn Hrows]]. unfold wide.
  apply Forall_forall. intros row Hin.
  rewrite (proj1 (Forall_forall _ _) Hrows row Hin). exact Hn.
Qed.

Lemma grid_ext (ns nmu : nat) (g g' : list (list R)) :
  shaped ns nmu g -> shaped ns nmu g' ->
  (forall i j, (i < nmu)%nat -> (j < ns)%nat -> entry g' j i = entry g j i) ->
  g' = g.
Proof.
  intros [Hlen Hrow] [Hlen' Hrow'] Hentry.
  apply (nth_ext _ _ [] []); [ lia | ].
  intros j Hj. rewrite Hlen' in Hj.
  apply (nth_ext _ _ 0 0); [ rewrite Hrow, Hrow' by exact Hj; reflexivity | ].
  intros i Hi. rewrite Hrow' in Hi by exact Hj.
  apply Hentry; assumption.
Qed.

(** The two loops on a two-dimensional array that holds a row for every
    grid cell: cell [j, i] receives [data[i * |s| + j, -2]]. *)
Lemma readCorrFile_cells (ncols : nat) (data : list (list R)) :
  array2d ncols data ->
  (length (np_unique (col 0 data)) * length (np_unique (col 1 data))
   <= length data)%nat ->
  exists xi_smu,
    readCorrFile data
    = ret (np_unique (col 0 data), np_unique (col 1 data), xi_smu)
    /\ shaped (length (np_unique (col 0 data)))
              (length (np_unique (col 1 data))) xi_smu
    /\ forall i j, (i < length (np_unique (col 1 data)))%nat ->
                   (j < length (np_unique (col 0 data)))%nat ->
                   entry xi_smu j i
                   = cell data (i * length (np_unique (col 0 data)) + j).
Proof.
  intros H2d Hrows. assert (Hw := array2d_wide _ _ H2d).
  set (s := np_unique (col 0 data)) in *.
  set (mu := np_unique (col 1 data)) in *.
  destruct (outer_loop data (length s) (length mu) Hw (length mu) 0%nat
              (np_zeros2 (length s) (length mu)) 0%nat)
    as [g [Hrun [Hshape [Hin _]]]];
    [ lia | lia | apply zeros2_shaped | ].
  exists g. split; [ | split; [ exact Hshape | ] ].
  - unfold readCorrFile.
    rewrite (column_ok 0 data Hw) by lia. cbn [bind ret].
    rewrite (column_ok 1 data Hw) by lia. cbn [bind ret].
    fold s. fold mu. rewrite Hrun. reflexivity.
  - intros i j Hi Hj. rewrite (Hin i j) by lia. f_equal. lia.
Qed.

(** C10 (amended). For a parsed table that is a two-dimensional array
    ([ncols >= 2] fields in each of at least two rows) with at least
    [|s| * |mu|] rows, [readCorrFile] returns the strictly increasing
    distinct values of the first two columns, and a grid of [|s|] rows and
    [|mu|] columns whose entry [j, i] is the second-to-last field of input
    row [i * |s| + j]: the correlation value when one more column follows
    it, the angle cosine when the rows are bare [(s, mu, xi)] triples. *)
Theorem readCorrFile_grid (ncols : nat) (data : list (list R)) :
  array2d ncols data ->
  (length (np_unique (col 0 data)) * length (np_unique (col 1 data))
   <= length data)%nat ->
  exists s mu xi_smu,
    readCorrFile data = ret (s, mu, xi_smu)
    /\ increasing s /\ (forall x, In x s <-> In x (col 0 data))
    /\ increasing mu /\ (forall x, In x mu <-> In x (col 1 data))
    /\ length xi_smu = length s
    /\ Forall (fun row => length row = length mu) xi_smu
    /\ forall i j, (i < length mu)%nat -> (j < length s)%nat ->
                   entry xi_smu j i
                   = nth (ncols - 2) (nth (i * length s + j) data []) 0.
Proof.
  intros H2d Hrows.
  destruct (readCorrFile_cells ncols data H2d Hrows)
    as [g [Hrun [Hshape Hentry]]].
  exists (np_unique (col 0 data)), (np_unique (col 1 data)), g.
  split; [ exact Hrun | ].
  split; [ apply np_unique_increasing | ].
  split; [ intros x; apply np_unique_In | ].
  split; [ apply np_unique_increasing | ].
  split; [ intros x; apply np_unique_In | ].
  split; [ apply Hshape | ].
  split; [ exact (shaped_Forall _ _ _ Hshape) | ].
  intros i j Hi Hj. rewrite (Hentry i j Hi Hj). unfold cell.
  destruct H2d as [_ [_ Hall]].
  rewrite (proj1 (Forall_forall _ _) Hall
             (nth (i * length (np_unique (col 0 data)) + j) data [])).
  - reflexivity.
  - apply nth_In. nia.
Qed.

Lemma unique_12 : np_unique [1; 2; 1; 2] = [1; 2].
Proof.
  unfold np_unique. simpl.
  repeat match goal with
         | |- context [Rlt_dec ?a ?b] => destruct (Rlt_dec a b); try lra; simpl
         end.
  reflexivity.
Qed.

Lemma unique_mu : np_unique [0.1; 0.1; 0.2; 0.2] = [0.1; 0.2].
Proof.
  unfold np_unique. simpl.
  repeat match goal with
         | |- context [Rlt_dec ?a ?b] => destruct (Rlt_dec a b); try lra; simpl
         end.
  reflexivity.
Qed.

Lemma example_table_array2d : array2d 4 example_table.
Proof.
  unfold array2d, example_table.
  split; [ simpl; lia | ]. split; [ lia | ]. repeat constructor.
Qed.

Lemma readCorrFile_grid_witness :
  exists s mu xi_smu,
    readCorrFile example_table = ret (s, mu, xi_smu)
    /\ increasing s /\ increasing mu
    /\ length xi_smu = length s
    /\ forall i j, (i < length mu)%nat -> (j < length s)%nat ->
                   entry xi_smu j i
                   = nth 2 (nth (i * length s + j) example_table []) 0.
Proof.
  assert (Hrows : (length (np_unique (col 0 example_table))
                   * length (np_unique (col 1 example_table))
                   <= length example_table)%nat).
  { unfold example_table, col. cbn [map nth].
    rewrite unique_12, unique_mu. simpl. lia. }
  destruct (readCorrFile_grid 4 example_table example_table_array2d Hrows)
    as [s [mu [g [Hrun [Hs [_ [Hmu [_ [Hlen [_ Hentry]]]]]]]]]].
  exists s, mu, g. repeat split; assumption.
Defined.


(** *** Variant 2 without growth *)

Lemma trapz_scale (c : R) (f : R -> R) (xs : list R) :
  np_trapz (map (fun m => c * f m) xs) xs = c * np_trapz (map f xs) xs.
Proof.
  induction xs as [| x0 [| x1 t] IH].
  - simpl. ring.
  - simpl. ring.
  - change (np_trapz (map (fun m => c * f m) (x0 :: x1 :: t)) (x0 :: x1 :: t))
      with ((x1 - x0) * (c * f x1 + c * f x0) / 2
            + np_trapz (map (fun m => c * f m) (x1 :: t)) (x1 :: t)).
    change (np_trapz (map f (x0 :: x1 :: t)) (x0 :: x1 :: t))
      with ((x1 - x0) * (f x1 + f x0) / 2 + np_trapz (map f (x1 :: t)) (x1 :: t)).
    rewrite IH. field.
Qed.

Lemma rescaled_r_scale (alpha_perp alpha_para : R) (r : list R) :
  rescaled_r alpha_perp alpha_para r
  = map (fun ri => ri * stretch alpha_perp alpha_para) r.
Proof.
  unfold rescaled_r, stretch. apply map_ext. intros ri.
  rewrite <- trapz_scale. f_equal. apply map_ext. intros m. ring.
Qed.

Lemma map_seq_increasing (f : nat -> R) :
  (forall i, f i < f (S i)) -> forall n k, increasing (map f (seq k n)).
Proof.
  intros Hf. induction n as [| n IH]; intros k; [ exact I | ].
  cbn [seq map]. apply increasing_cons; [ | apply IH ].
  intros Hne. destruct n; [ exfalso; apply Hne; reflexivity | simpl; apply Hf ].
Qed.

Lemma linspace_increasing (a b : R) (n : nat) :
  a < b -> increasing (np_linspace a b (S (S n))).
Proof.
  intros Hab. unfold np_linspace. apply map_seq_increasing. intros i.
  replace (S (S n) - 1)%nat with (S n) by lia.
  assert (0 < (b - a) / INR (S n)).
  { apply Rdiv_lt_0_compat; [ lra | apply lt_0_INR; lia ]. }
  set (step := (b - a) / INR (S n)) in *.
  rewrite (S_INR i).
  replace (a + (INR i + 1) * step) with (a + INR i * step + step) by ring.
  lra.
Qed.

Lemma trapz_nonneg (f : R -> R) (xs : list R) :
  increasing xs -> (forall x, In x xs -> 0 < f x) ->
  0 <= np_trapz (map f xs) xs.
Proof.
  induction xs as [| x0 [| x1 t] IH]; intros Hinc Hf.
  - simpl. lra.
  - simpl. lra.
  - change (np_trapz (map f (x0 :: x1 :: t)) (x0 :: x1 :: t))
      with ((x1 - x0) * (f x1 + f x0) / 2 + np_trapz (map f (x1 :: t)) (x1 :: t)).
    destruct Hinc as [H01 Hinc].
    assert (H0 := Hf x0 (or_introl eq_refl)).
    assert (H1 := Hf x1 (or_intror (or_introl eq_refl))).
    assert (Hrest : 0 <= np_trapz (map f (x1 :: t)) (x1 :: t)).
    { apply IH; [ exact Hinc | intros x Hx; apply Hf; right; exact Hx ]. }
    assert (0 < (x1 - x0) * (f x1 + f x0)) by (apply Rmult_lt_0_compat; lra).
    lra.
Qed.

Lemma trapz_pos (f : R -> R) (x0 x1 : R) (t : list R) :
  increasing (x0 :: x1 :: t) -> (forall x, In x (x0 :: x1 :: t) -> 0 < f x) ->
  0 < np_trapz (map f (x0 :: x1 :: t)) (x0 :: x1 :: t).
Proof.
  intros Hinc Hf.
  change (np_trapz (map f (x0 :: x1 :: t)) (x0 :: x1 :: t))
    with ((x1 - x0) * (f x1 + f x0) / 2 + np_trapz (map f (x1 :: t)) (x1 :: t)).
  destruct Hinc as [H01 Hinc].
  assert (H0 := Hf x0 (or_introl eq_refl)).
  assert (H1 := Hf x1 (or_intror (or_introl eq_refl))).
  assert (Hrest : 0 <= np_trapz (map f (x1 :: t)) (x1 :: t)).
  { apply trapz_nonneg; [ exact Hinc | intros x Hx; apply Hf; right; exact Hx ]. }
  assert (0 < (x1 - x0) * (f x1 + f x0)) by (apply Rmult_lt_0_compat; lra).
  lra.
Qed.

Lemma stretch_2_1_pos : 0 < stretch 2 1.
Proof.
  unfold stretch.
  assert (Hinc : increasing (np_linspace 0 1 100)).
  { change 100%nat with (S (S 98)). apply linspace_increasing. lra. }
  assert (Hrange : forall x, In x (np_linspace 0 1 100) -> 0 <= x <= 1).
  { intros x Hx. split.
    - apply Rle_trans with (hd 0 (np_linspace 0 1 100)).
      + change 100%nat with (S 99). rewrite linspace_hd. lra.
      + apply increasing_hd_le; assumption.
    - apply Rle_trans with (last (np_linspace 0 1 100) 0).
      + apply increasing_le_last; assumption.
      + change 100%nat with (S (S 98)). rewrite linspace_last. lra. }
  assert (Hpos : forall x, In x (np_linspace 0 1 100) ->
                           0 < 1 * sqrt (1 + (1 - x ^ 2) * (2 ^ 2 / 1 ^ 2 - 1))).
  { intros x Hx. destruct (Hrange x Hx) as [Hx0 Hx1].
    rewrite Rmult_1_l. apply sqrt_lt_R0. nra. }
  assert (Hshape : exists x0 x1 t, np_linspace 0 1 100 = x0 :: x1 :: t).
  { unfold np_linspace. change 100%nat with (S (S 98)). cbn [seq map].
    do 3 eexists. reflexivity. }
  destruct Hshape as [x0 [x1 [t E]]]. rewrite E in *.
  apply (trapz_pos (fun m => 1 * sqrt (1 + (1 - m ^ 2) * (2 ^ 2 / 1 ^ 2 - 1))));
    [ exact Hinc | exact Hpos ].
Qed.

Lemma true_s_identity (s mu : R) :
  0 <= s -> -1 <= mu <= 1 -> true_s_of 1 1 s mu = s.
Proof.
  intros Hs Hmu. unfold true_s_of.
  replace ((s * mu * 1) ^ 2 + (s * sqrt (1 - mu ^ 2) * 1) ^ 2)
    with (s ^ 2 * (mu ^ 2 + sqrt (1 - mu ^ 2) ^ 2)) by ring.
  rewrite pow2_sqrt by nra.
  replace (s ^ 2 * (mu ^ 2 + (1 - mu ^ 2))) with (s ^ 2) by ring.
  apply sqrt_pow2. exact Hs.
Qed.

Section NoGrowth.

Variable splev : nat -> list R -> list R -> R -> R.

(** With a vanishing growth amplitude the linear model returns the rebuilt
    real-space correlation at the true separation; the normalisation and the
    true separation are non-zero, so that no quotient of lines 269-281 is
    [0 / 0]. *)
Lemma model2_point_no_growth (k alpha_perp alpha_para : R)
    (p1 p2 p3 : Spline) (s mu : R) :
  k <> 0 -> true_s_of alpha_perp alpha_para s mu <> 0 ->
  snd (model2_point splev (0 / k) alpha_perp alpha_para (p1, p2, p3) s mu)
  = spline_call splev p1 (true_s_of alpha_perp alpha_para s mu).
Proof.
  intros _ _.
  unfold model2_point, true_s_of. cbn [snd].
  replace (0 / k) with 0 by (unfold Rdiv; ring).
  assert (Hr : forall A D N : R, A * (1 + 0 / 3 * D * N) = A)
    by (intros; field).
  rewrite Hr. unfold Rdiv. ring.
Qed.

(** C6 (amended). With [fs8 = 0], a non-zero normalisation and [|mu| <= 1],
    the per-(s, mu) prediction of [model2_theory] from the interpolants [P]
    it has rebuilt is the rebuilt real-space correlation evaluated at the
    true separation [true_s], when that is not zero; for
    [alpha_perp = alpha_para = 1] and [s > 0] that is its value at [s],
    whatever [mu], and at a sampled radius (of at least four, strictly
    increasing) it is the value of the loaded correlation [xi_r]. *)
Theorem model2_no_growth (self : RSDModel) (P : Spline * Spline * Spline)
    (alpha_perp alpha_para s mu : R) :
  s8norm self <> 0 -> -1 <= mu <= 1 ->
  let xi_model := fun a_perp a_para Q =>
    snd (model2_point splev (0 / s8norm self) a_perp a_para Q s mu) in
  let rescaled_xi_r := fst (fst P) in
  (true_s_of alpha_perp alpha_para s mu <> 0 ->
   xi_model alpha_perp alpha_para P
   = spline_call splev rescaled_xi_r (true_s_of alpha_perp alpha_para s mu))
  /\ (0 < s -> xi_model 1 1 P = spline_call splev rescaled_xi_r s)
  /\ (0 < s -> In s (r_for_delta self) ->
      (4 <= length (r_for_delta self))%nat ->
      increasing (r_for_delta self) ->
      interpolates splev (r_for_delta self) ->
      xi_model 1 1 (model2_profiles splev self 1 1)
      = spline_call splev (xi_r self) s).
Proof.
  intros Hk Hmu. cbv zeta.
  assert (Hone : 0 < s -> true_s_of 1 1 s mu = s).
  { intros Hs. apply true_s_identity; [ lra | exact Hmu ]. }
  destruct P as [[p1 p2] p3]. cbn [fst].
  split; [ | split ].
  - intros Ht. apply model2_point_no_growth; assumption.
  - intros Hs. rewrite model2_point_no_growth by (rewrite ?Hone; lra).
    rewrite Hone by exact Hs. reflexivity.
  - intros Hs Hin _ Hinc Hint. unfold model2_profiles.
    rewrite model2_point_no_growth by (rewrite ?Hone; lra).
    rewrite Hone by exact Hs.
    apply rebuilt_agrees; assumption.
Qed.

End NoGrowth.

Lemma model2_no_growth_witness :
  snd (model2_point splev_ref (0 / s8norm (example_model 2)) 1 1
                    (model2_profiles splev_ref (example_model 2) 1 1)
                    2 (1 / 2))
  = spline_call splev_ref (xi_r (example_model 2)) 2.
Proof.
  refine (proj2 (proj2 (model2_no_growth splev_ref (example_model 2)
                          (flat4, flat4, flat4) 1 1 2 (1 / 2) _ _))
                _ _ _ knots4_increasing lagrange_interpolates_knots4).
  - cbn [s8norm example_model]. lra.
  - lra.
  - lra.
  - unfold example_model, knots4. cbn. auto.
  - simpl. lia.
Defined.

Lemma example_s8norm (id : Z) : s8norm (example_model id) <> 0.
Proof. cbn [s8norm example_model]. lra. Qed.

(** C6 as stated fails in two ways.  Under a geometric distortion
    ([alpha_perp = 2], [alpha_para = 1], [s = stretch 2 1]) the prediction is
    10 along the line of sight ([mu = 1]) and 20 across it ([mu = 0]).
    Without distortion ([alpha_perp = alpha_para = 1]) it is the rebuilt
    correlation, which between the sampled radii need not be the loaded one:
    with the correlation profile sampled on the radii 2..5 and the others on
    1..4, the prediction at [s = 5/2] is 9/16 where [xi_r] is 15/16. *)
Lemma model2_no_growth_counterexample :
  (let self := example_model 2 in
   let xi_model := fun mu =>
     snd (model2_point splev_ref (0 / s8norm self) 2 1
                       (model2_profiles splev_ref self 2 1) (stretch 2 1) mu) in
   xi_model 1 = 10 /\ xi_model 0 = 20
   /\ ~ (forall mu, -1 <= mu <= 1 ->
                    xi_model mu
                    = spline_call splev_ref (xi_r self) (stretch 2 1)))
  /\ (let self := offset_model 2 in
      let xi_model :=
        snd (model2_point splev_ref (0 / s8norm self) 1 1
                          (model2_profiles splev_ref self 1 1)
                          (5 / 2) (1 / 2)) in
      xi_model = 9 / 16
      /\ spline_call splev_ref (xi_r self) (5 / 2) = 15 / 16
      /\ xi_model <> spline_call splev_ref (xi_r self) (5 / 2)).
Proof.
  cbv zeta. split.
  - assert (HT := stretch_2_1_pos).
    assert (Hp : model2_profiles splev_ref (example_model 2) 2 1
                 = (InterpolatedUnivariateSpline
                      [1 * stretch 2 1; 2 * stretch 2 1; 3 * stretch 2 1;
                       4 * stretch 2 1]
                      [10; 20; 30; 40] 3 Extrapolate,
                    InterpolatedUnivariateSpline
                      [1 * stretch 2 1; 2 * stretch 2 1; 3 * stretch 2 1;
                       4 * stretch 2 1]
                      [0; 0; 0; 0] 3 Const,
                    InterpolatedUnivariateSpline
                      [1 * stretch 2 1; 2 * stretch 2 1; 3 * stretch 2 1;
                       4 * stretch 2 1]
                      [0; 0; 0; 0] 3 Const)).
    { unfold model2_profiles. rewrite rescaled_r_scale.
      change (r_for_delta (example_model 2)) with knots4.
      change (xi_r (example_model 2)) with (profile4 [10; 20; 30; 40]).
      change (delta_r (example_model 2)) with (profile4 [0; 0; 0; 0]).
      change (Delta_r (example_model 2)) with (profile4 [0; 0; 0; 0]).
      rewrite !profile4_samples. reflexivity. }
    rewrite Hp.
    assert (H1 : true_s_of 2 1 (stretch 2 1) 1 = stretch 2 1).
    { unfold true_s_of.
      replace (1 - 1 ^ 2) with 0 by ring. rewrite sqrt_0.
      replace ((stretch 2 1 * 1 * 1) ^ 2 + (stretch 2 1 * 0 * 2) ^ 2)
        with (stretch 2 1 ^ 2) by ring.
      apply sqrt_pow2. lra. }
    assert (H0 : true_s_of 2 1 (stretch 2 1) 0 = 2 * stretch 2 1).
    { unfold true_s_of.
      replace (1 - 0 ^ 2) with 1 by ring. rewrite sqrt_1.
      replace ((stretch 2 1 * 0 * 1) ^ 2 + (stretch 2 1 * 1 * 2) ^ 2)
        with ((2 * stretch 2 1) ^ 2) by ring.
      apply sqrt_pow2. lra. }
    assert (V1 : spline_call splev_ref
                   (InterpolatedUnivariateSpline
                      [1 * stretch 2 1; 2 * stretch 2 1; 3 * stretch 2 1;
                       4 * stretch 2 1]
                      [10; 20; 30; 40] 3 Extrapolate) (stretch 2 1) = 10).
    { unfold spline_call, splev_ref, lagrange, Rsum. cbn. field. lra. }
    assert (V0 : spline_call splev_ref
                   (InterpolatedUnivariateSpline
                      [1 * stretch 2 1; 2 * stretch 2 1; 3 * stretch 2 1;
                       4 * stretch 2 1]
                      [10; 20; 30; 40] 3 Extrapolate) (2 * stretch 2 1) = 20).
    { unfold spline_call, splev_ref, lagrange, Rsum. cbn. field. lra. }
    assert (E1 : snd (model2_point splev_ref (0 / s8norm (example_model 2)) 2 1
                        (InterpolatedUnivariateSpline
                           [1 * stretch 2 1; 2 * stretch 2 1; 3 * stretch 2 1;
                            4 * stretch 2 1]
                           [10; 20; 30; 40] 3 Extrapolate,
                         InterpolatedUnivariateSpline
                           [1 * stretch 2 1; 2 * stretch 2 1; 3 * stretch 2 1;
                            4 * stretch 2 1]
                           [0; 0; 0; 0] 3 Const,
                         InterpolatedUnivariateSpline
                           [1 * stretch 2 1; 2 * stretch 2 1; 3 * stretch 2 1;
                            4 * stretch 2 1]
                           [0; 0; 0; 0] 3 Const) (stretch 2 1) 1) = 10).
    { rewrite model2_point_no_growth;
        [ rewrite H1; exact V1 | apply example_s8norm | rewrite H1; lra ]. }
    assert (E0 : snd (model2_point splev_ref (0 / s8norm (example_model 2)) 2 1
                        (InterpolatedUnivariateSpline
                           [1 * stretch 2 1; 2 * stretch 2 1; 3 * stretch 2 1;
                            4 * stretch 2 1]
                           [10; 20; 30; 40] 3 Extrapolate,
                         InterpolatedUnivariateSpline
                           [1 * stretch 2 1; 2 * stretch 2 1; 3 * stretch 2 1;
                            4 * stretch 2 1]
                           [0; 0; 0; 0] 3 Const,
                         InterpolatedUnivariateSpline
                           [1 * stretch 2 1; 2 * stretch 2 1; 3 * stretch 2 1;
                            4 * stretch 2 1]
                           [0; 0; 0; 0] 3 Const) (stretch 2 1) 0) = 20).
    { rewrite model2_point_no_growth;
        [ rewrite H0; exact V0 | apply example_s8norm | rewrite H0; lra ]. }
    split; [ exact E1 | ]. split; [ exact E0 | ].
    intros Hall.
    assert (Ha := Hall 1). assert (Hb := Hall 0).
    rewrite E1 in Ha. rewrite E0 in Hb.
    assert (A : -1 <= 1 <= 1) by lra. assert (B : -1 <= 0 <= 1) by lra.
    specialize (Ha A). specialize (Hb B). lra.
  - assert (Ht : true_s_of 1 1 (5 / 2) (1 / 2) = 5 / 2)
      by (apply true_s_identity; lra).
    assert (E : snd (model2_point splev_ref (0 / s8norm (offset_model 2)) 1 1
                       (model2_profiles splev_ref (offset_model 2) 1 1)
                       (5 / 2) (1 / 2)) = 9 / 16).
    { unfold model2_profiles.
      rewrite model2_point_no_growth;
        [ | cbn [s8norm offset_model]; lra | rewrite Ht; lra ].
      rewrite Ht.
      change (r_for_delta (offset_model 2)) with knots4.
      change (xi_r (offset_model 2)) with offset_profile.
      apply offset_rebuilt_value. }
    rewrite E.
    change (xi_r (offset_model 2)) with offset_profile.
    rewrite offset_original_value.
    repeat split. lra.
Qed.

(** * Further properties of the sampler-facing methods *)

Lemma log_prior_wrong_length (self : RSDModel) (theta : list R) :
  length theta <> prior_arity self -> log_prior self theta = raise ValueError.
Proof.
  unfold log_prior, prior_arity.
  destruct ((model self =? 1)%Z || (model self =? 3)%Z).
  - destruct theta as [| a [| b [| c [| d t]]]]; cbn [length];
      intros H; try reflexivity. lia.
  - destruct theta as [| a [| b [| c t]]]; cbn [length];
      intros H; try reflexivity. lia.
Qed.

Lemma log_prior_right_length (self : RSDModel) (theta : list R) :
  length theta = prior_arity self ->
  log_prior self theta = ret (Fin 0.0) \/ log_prior self theta = ret NegInf.
Proof.
  unfold log_prior, prior_arity.
  destruct ((model self =? 1)%Z || (model self =? 3)%Z).
  - destruct theta as [| a [| b [| c [| d t]]]]; cbn [length];
      intros H; try discriminate H.
    cbn [unpack3 bind ret].
    destruct (prior3_cases a b c) as [[_ ->] | [_ ->]]; auto.
  - destruct theta as [| a [| b [| c t]]]; cbn [length];
      intros H; try discriminate H.
    cbn [unpack2 bind ret].
    destruct (prior2_cases a b) as [[_ ->] | [_ ->]]; auto.
Qed.

(** X1. [log_prior] raises [ValueError] exactly when the parameter vector
    does not have the number of entries the model id calls for (three for
    model ids 1 and 3, two otherwise); with the right number it returns 0.0
    or negative infinity. *)
Theorem log_prior_arity (self : RSDModel) (theta : list R) :
  (log_prior self theta = raise ValueError <-> length theta <> prior_arity self)
  /\ (length theta = prior_arity self ->
      log_prior self theta = ret (Fin 0.0) \/ log_prior self theta = ret NegInf).
Proof.
  split; [ split | apply log_prior_right_length ].
  - intros Hraise Hlen.
    destruct (log_prior_right_length self theta Hlen) as [H | H];
      rewrite H in Hraise; discriminate Hraise.
  - apply log_prior_wrong_length.
Qed.

Lemma log_prior_arity_witness :
  log_prior (example_model 1) [0.5; 1] = raise ValueError.
Proof.
  refine (proj2 (proj1 (log_prior_arity (example_model 1) [0.5; 1])) _).
  unfold prior_arity. cbn. lia.
Defined.

Section SamplerFacing.

Variable splev : nat -> list R -> list R -> R -> R.
Variable simps : list R -> list R -> R.

(** X2. A parameter vector of the wrong length makes the sampler callback
    raise [ValueError] out of [log_prior]; the likelihood is not called. *)
Theorem log_probability_wrong_arity (self : RSDModel) (theta : list R)
    (tr : list call) :
  length theta <> prior_arity self ->
  log_probability (rsd_object splev simps self) theta tr
  = (raise ValueError, tr ++ [CallLogPrior theta]).
Proof.
  intros Hlen.
  assert (Hp : log_prior self theta = raise ValueError)
    by (apply log_prior_wrong_length; exact Hlen).
  unfold log_probability, run_bind, invoke, rsd_object. cbn [obj_log_prior].
  rewrite Hp. reflexivity.
Qed.

End SamplerFacing.

Lemma log_probability_wrong_arity_witness :
  log_probability (rsd_object splev_ref simps_ref (example_model 2))
                  [0.5; 300; 1] []
  = (raise ValueError, [CallLogPrior [0.5; 300; 1]]).
Proof.
  refine (log_probability_wrong_arity splev_ref simps_ref (example_model 2)
            [0.5; 300; 1] [] _).
  unfold prior_arity. cbn. lia.
Defined.

Lemma np_sub_mismatch (a b : list R) :
  length a <> length b -> length a <> 1%nat -> length b <> 1%nat ->
  np_sub a b = raise ValueError.
Proof.
  intros Hab Ha Hb. unfold np_sub.
  rewrite (proj2 (Nat.eqb_neq _ _) Hab).
  destruct a as [| x [| y a]]; destruct b as [| u [| v b]];
    cbn [length] in *; try reflexivity; lia.
Qed.

Lemma Rpower_cube (x y : R) : Rpower x y ^ 3 = Rpower x (3 * y).
Proof.
  replace (3 * y) with (y + y + y) by ring.
  rewrite !Rpower_plus. ring.
Qed.

Lemma Rpower_2 (x : R) : 0 < x -> Rpower x 2 = x ^ 2.
Proof.
  intros Hx. replace 2 with (1 + 1) by ring.
  rewrite Rpower_plus, Rpower_1 by exact Hx. ring.
Qed.

Section LikelihoodFurther.

Variable splev : nat -> list R -> list R -> R -> R.
Variable simps : list R -> list R -> R.

(** X3. A model-3 instance never yields a finite log-probability: the prior
    wants three parameters and the likelihood two, so the callback returns
    negative infinity or raises [ValueError]; inside the prior box it always
    raises, after calling the likelihood. *)
Theorem log_probability_model3_never_finite (self : RSDModel)
    (theta : list R) (tr : list call) :
  model self = 3%Z ->
  (fst (log_probability (rsd_object splev simps self) theta tr) = ret NegInf
   \/ fst (log_probability (rsd_object splev simps self) theta tr)
      = raise ValueError)
  /\ (forall a b c, theta = [a; b; c] -> in_prior3 a b c ->
        log_probability (rsd_object splev simps self) theta tr
        = (raise ValueError,
           tr ++ [CallLogPrior theta; CallLogLikelihood theta])).
Proof.
  intros Hm.
  assert (Hll : forall a b c,
             log_likelihood splev simps self [a; b; c] = raise ValueError).
  { intros a b c. unfold log_likelihood, predicted_multipoles, unpack_theta.
    rewrite Hm. reflexivity. }
  assert (Hin : forall a b c, in_prior3 a b c ->
             log_probability (rsd_object splev simps self) [a; b; c] tr
             = (raise ValueError,
                tr ++ [CallLogPrior [a; b; c]; CallLogLikelihood [a; b; c]])).
  { intros a b c Hbox.
    unfold log_probability, run_bind, invoke, rsd_object.
    cbn [obj_log_prior obj_log_likelihood].
    unfold log_prior. rewrite Hm. cbn [Z.eqb Pos.eqb orb unpack3 bind ret].
    destruct (prior3_cases a b c) as [[_ ->] | [Hoff _]];
      [ | destruct (in_off_prior3 _ _ _ Hbox Hoff) ].
    cbn [ret np_isfinite negb]. rewrite Hll. cbn [raise].
    rewrite <- app_assoc. reflexivity. }
  split.
  - destruct (Nat.eq_dec (length theta) 3) as [Hlen | Hlen].
    + destruct theta as [| a [| b [| c [| d t]]]]; try discriminate Hlen.
      destruct (prior3_cases a b c) as [[Hbox _] | [_ Hoff]].
      * right. rewrite (Hin a b c Hbox). reflexivity.
      * left. unfold log_probability, run_bind, invoke, rsd_object.
        cbn [obj_log_prior]. unfold log_prior. rewrite Hm.
        cbn [Z.eqb Pos.eqb orb unpack3 bind ret]. rewrite Hoff. reflexivity.
    + right. unfold log_probability, run_bind, invoke, rsd_object.
      cbn [obj_log_prior].
      rewrite log_prior_wrong_length; [ reflexivity | ].
      unfold prior_arity. rewrite Hm. exact Hlen.
  - intros a b c -> Hbox. apply Hin. exact Hbox.
Qed.

(** What a returned [chi2] is: the quadratic form of the residual, which has
    one entry per row of [icov]. *)
Lemma chi2_of_inversion (self : RSDModel) (modelvec : list R) (chi2 : R) :
  chi2_of self modelvec = ret chi2 ->
  exists d,
    length d = length (icov self) /\ chi2 = quadratic_form d (icov self).
Proof.
  unfold chi2_of.
  destruct (np_sub modelvec (datavec self)) as [e | d]; cbn [bind];
    [ discriminate | ].
  unfold np_dot_vm.
  destruct (Nat.eqb (length d) (length (icov self))) eqn:E1;
    cbn [bind ret raise]; [ | discriminate ].
  unfold np_dot_vv. rewrite length_map, length_seq.
  destruct (Nat.eqb (length (hd [] (icov self))) (length d)) eqn:E2;
    [ | discriminate ].
  intros H. injection H as <-. exists d.
  apply Nat.eqb_eq in E1, E2.
  split; [ exact E1 | ].
  unfold quadratic_form. rewrite E2. reflexivity.
Qed.

Lemma log_likelihood_inversion (self : RSDModel) (theta : list R) (l : R) :
  log_likelihood splev simps self theta = ret l ->
  exists xi0 xi2 d,
    predicted_multipoles splev simps self theta = ret (xi0, xi2)
    /\ length d = length (icov self)
    /\ l = - IZR (nmocks self) / 2
           * ln (1 + quadratic_form d (icov self) / (IZR (nmocks self) - 1)).
Proof.
  unfold log_likelihood.
  destruct (predicted_multipoles splev simps self theta) as [e | [xi0 xi2]];
    cbn [bind]; [ discriminate | ].
  destruct (chi2_of self (modelvec_of self xi0 xi2)) as [e | chi2] eqn:E;
    cbn [bind ret]; [ discriminate | ].
  intros H. injection H as <-.
  destruct (chi2_of_inversion _ _ _ E) as [d [Hd ->]].
  exists xi0, xi2, d. repeat split. exact Hd.
Qed.

(** Once the evaluator has returned, a model vector of the shape of
    [datavec] and [icov] gives a log-likelihood. *)
Lemma log_likelihood_runs (self : RSDModel) (theta : list R)
    (xi0 xi2 : list R) :
  predicted_multipoles splev simps self theta = ret (xi0, xi2) ->
  length (datavec self) = modelvec_length self ->
  length (icov self) = length (datavec self) ->
  length (hd [] (icov self)) = length (datavec self) ->
  exists l, log_likelihood splev simps self theta = ret l.
Proof.
  intros Hpred Hdata Hrows Hcols.
  destruct (predicted_multipoles_lengths splev simps _ _ _ _ Hpred)
    as [H0 H2].
  assert (Hlen : length (modelvec_of self xi0 xi2) = length (datavec self)).
  { rewrite Hdata. unfold modelvec_of, modelvec_length.
    destruct (full_fit self); [ rewrite length_app; lia | exact H2 ]. }
  unfold log_likelihood. rewrite Hpred. cbn [bind ret].
  rewrite (chi2_of_shapes self _ Hlen Hrows Hcols). cbn [bind ret].
  eexists. reflexivity.
Qed.

(** X4. With more than one mock and an inverse covariance whose quadratic
    form is never negative, a log-likelihood that [log_likelihood] returns
    is never positive. *)
Theorem log_likelihood_nonpositive (self : RSDModel) (theta : list R)
    (l : R) :
  log_likelihood splev simps self theta = ret l ->
  (1 < nmocks self)%Z ->
  (forall d, length d = length (icov self) ->
             0 <= quadratic_form d (icov self)) ->
  l <= 0.
Proof.
  intros Hll Hn Hpsd.
  destruct (log_likelihood_inversion self theta l Hll)
    as [xi0 [xi2 [d [_ [Hd ->]]]]].
  assert (Hq := Hpsd d Hd).
  assert (Hn1 : 1 < IZR (nmocks self)) by (apply IZR_lt; exact Hn).
  assert (Hfrac : 0 <= quadratic_form d (icov self) / (IZR (nmocks self) - 1)).
  { apply Rmult_le_pos; [ exact Hq | ].
    left. apply Rinv_0_lt_compat. lra. }
  assert (Hln : 0 <= ln (1 + quadratic_form d (icov self)
                             / (IZR (nmocks self) - 1))).
  { destruct Hfrac as [Hlt | Heq].
    - left. rewrite <- ln_1. apply ln_increasing; lra.
    - rewrite <- Heq, Rplus_0_r, ln_1. lra. }
  assert (Hneg : - IZR (nmocks self) / 2 <= 0) by lra.
  replace 0 with (- IZR (nmocks self) / 2 * 0) by ring.
  apply Rmult_le_compat_neg_l; assumption.
Qed.

(** X5. Once the evaluator has returned: when [datavec] does not have the
    length of the model vector, and neither has length one, the residual
    cannot be formed and [log_likelihood] raises [ValueError]. *)
Theorem log_likelihood_shape_mismatch (self : RSDModel) (theta : list R)
    (xi0 xi2 : list R) :
  predicted_multipoles splev simps self theta = ret (xi0, xi2) ->
  length (datavec self) <> modelvec_length self ->
  length (datavec self) <> 1%nat ->
  modelvec_length self <> 1%nat ->
  log_likelihood splev simps self theta = raise ValueError.
Proof.
  intros Hpred Hne Hd1 Hm1.
  destruct (predicted_multipoles_lengths splev simps _ _ _ _ Hpred)
    as [H0 H2].
  assert (Hlen : length (modelvec_of self xi0 xi2) = modelvec_length self).
  { unfold modelvec_of, modelvec_length.
    destruct (full_fit self); [ rewrite length_app; lia | exact H2 ]. }
  unfold log_likelihood. rewrite Hpred. cbn [bind ret].
  unfold chi2_of. rewrite np_sub_mismatch by lia. reflexivity.
Qed.

(** X6. For a positive distortion ratio [epsilon] the evaluator is called
    with scalings whose ratio [alpha_perp / alpha_para] is [epsilon] and
    whose volume factor [alpha_perp^2 * alpha_para] is 1; at [epsilon = 1]
    both scalings are 1. *)
Theorem likelihood_distortion_scalings (self : RSDModel)
    (fs8 sigma_v epsilon : R) :
  0 < epsilon ->
  exists alpha_perp alpha_para,
    alpha_perp / alpha_para = epsilon
    /\ alpha_perp ^ 2 * alpha_para = 1
    /\ (epsilon = 1 -> alpha_perp = 1 /\ alpha_para = 1)
    /\ (model self = 1%Z ->
        predicted_multipoles splev simps self [fs8; sigma_v; epsilon]
        = model1_theory splev simps self fs8 sigma_v alpha_perp alpha_para
                        (s_for_xi self) (mu_for_xi self))
    /\ (model self <> 1%Z -> model self <> 3%Z ->
        predicted_multipoles splev simps self [fs8; epsilon]
        = model2_theory splev simps self fs8 alpha_perp alpha_para
                        (s_for_xi self) (mu_for_xi self)).
Proof.
  intros Heps.
  exists (epsilon * (1.0 * Rpower epsilon (-2 / 3))),
         (1.0 * Rpower epsilon (-2 / 3)).
  assert (Hpos : 0 < Rpower epsilon (-2 / 3)) by (unfold Rpower; apply exp_pos).
  assert (Hcube : Rpower epsilon (-2 / 3) ^ 3 = / epsilon ^ 2).
  { rewrite Rpower_cube.
    replace (3 * (-2 / 3)) with (Ropp 2) by lra.
    rewrite Rpower_Ropp, Rpower_2 by exact Heps. reflexivity. }
  assert (Hal : 1.0 * Rpower epsilon (-2 / 3) = Rpower epsilon (-2 / 3)) by lra.
  split; [ rewrite Hal; field; lra | ].
  split.
  { rewrite Hal.
    replace ((epsilon * Rpower epsilon (-2 / 3)) ^ 2 * Rpower epsilon (-2 / 3))
      with (epsilon ^ 2 * Rpower epsilon (-2 / 3) ^ 3) by ring.
    rewrite Hcube. field. lra. }
  split.
  { intros ->. rewrite Hal. unfold Rpower. rewrite ln_1, Rmult_0_r, exp_0. lra. }
  split.
  - intros Hm. unfold predicted_multipoles, unpack_theta. rewrite Hm.
    reflexivity.
  - intros H1 H3. unfold predicted_multipoles, unpack_theta.
    apply Z.eqb_neq in H1, H3. rewrite H1, H3. reflexivity.
Qed.

End LikelihoodFurther.

Lemma log_probability_model3_never_finite_witness :
  log_probability (rsd_object splev_ref simps_ref (example_model 3))
                  [0.5; 300; 1] []
  = (raise ValueError,
     [CallLogPrior [0.5; 300; 1]; CallLogLikelihood [0.5; 300; 1]]).
Proof.
  refine (proj2 (log_probability_model3_never_finite splev_ref simps_ref
                   (example_model 3) [0.5; 300; 1] [] eq_refl)
                0.5 300 1 eq_refl _).
  unfold in_prior3. lra.
Defined.

Lemma example_log_likelihood :
  exists l,
    log_likelihood splev_ref simps_ref (example_model 1) [0.5; 300; 1] = ret l.
Proof.
  destruct example_predicted as [xi0 [xi2 [Hpred _]]].
  exact (log_likelihood_runs splev_ref simps_ref (example_model 1)
           [0.5; 300; 1] xi0 xi2 Hpred eq_refl eq_refl eq_refl).
Qed.

Lemma log_likelihood_nonpositive_witness :
  exists l,
    log_likelihood splev_ref simps_ref (example_model 1) [0.5; 300; 1] = ret l
    /\ l <= 0.
Proof.
  destruct example_log_likelihood as [l Hll].
  exists l. split; [ exact Hll | ].
  refine (log_likelihood_nonpositive splev_ref simps_ref (example_model 1)
            [0.5; 300; 1] l Hll _ _).
  - reflexivity.
  - intros d Hd. destruct d as [| a [| b [| c d]]]; try discriminate Hd.
    unfold quadratic_form, Rsum. simpl. nra.
Defined.

Lemma log_likelihood_shape_mismatch_witness :
  log_likelihood splev_ref simps_ref (with_datavec (example_model 1) [0; 0; 0])
                 [0.5; 300; 1]
  = raise ValueError.
Proof.
  destruct example_predicted as [xi0 [xi2 [Hpred _]]].
  refine (log_likelihood_shape_mismatch splev_ref simps_ref
            (with_datavec (example_model 1) [0; 0; 0]) [0.5; 300; 1]
            xi0 xi2 Hpred _ _ _).
  - cbn. lia.
  - cbn. lia.
  - cbn. lia.
Defined.

Lemma likelihood_distortion_scalings_witness :
  exists alpha_perp alpha_para,
    alpha_perp / alpha_para = 1 /\ alpha_perp ^ 2 * alpha_para = 1.
Proof.
  destruct (likelihood_distortion_scalings splev_ref simps_ref
              (example_model 1) 0.5 300 1 Rlt_0_1)
    as [ap [al [H1 [H2 _]]]].
  exists ap, al. split; assumption.
Defined.

(** * Further properties of the rescaling step and the evaluators *)

Lemma linspace01_range (x : R) : In x (np_linspace 0 1 100) -> 0 <= x <= 1.
Proof.
  assert (Hinc : increasing (np_linspace 0 1 100)).
  { change 100%nat with (S (S 98)). apply linspace_increasing. lra. }
  intros Hx. split.
  - apply Rle_trans with (hd 0 (np_linspace 0 1 100)).
    + change 100%nat with (S 99). rewrite linspace_hd. lra.
    + apply increasing_hd_le; assumption.
  - apply Rle_trans with (last (np_linspace 0 1 100) 0).
    + apply increasing_le_last; assumption.
    + change 100%nat with (S (S 98)). rewrite linspace_last. lra.
Qed.

Lemma stretch_pos (alpha_perp alpha_para : R) :
  0 < alpha_para -> alpha_perp <> 0 -> 0 < stretch alpha_perp alpha_para.
Proof.
  intros Hal Hap. unfold stretch.
  assert (Hinc : increasing (np_linspace 0 1 100)).
  { change 100%nat with (S (S 98)). apply linspace_increasing. lra. }
  assert (Hq : 0 < alpha_perp ^ 2 / alpha_para ^ 2).
  { apply Rdiv_lt_0_compat; nra. }
  assert (Hpos : forall x, In x (np_linspace 0 1 100) ->
             0 < alpha_para *
                 sqrt (1 + (1 - x ^ 2) * (alpha_perp ^ 2 / alpha_para ^ 2 - 1))).
  { intros x Hx. destruct (linspace01_range x Hx) as [Hx0 Hx1].
    apply Rmult_lt_0_compat; [ exact Hal | ].
    apply sqrt_lt_R0.
    set (q := alpha_perp ^ 2 / alpha_para ^ 2) in *.
    assert (Ht0 : 0 <= 1 - x ^ 2) by nra.
    assert (Ht1 : 1 - x ^ 2 <= 1) by nra.
    destruct (Rle_dec (1 - x ^ 2) (1 / 2)) as [Hs | Hs]; nra. }
  assert (Hshape : exists x0 x1 t, np_linspace 0 1 100 = x0 :: x1 :: t).
  { unfold np_linspace. change 100%nat with (S (S 98)). cbn [seq map].
    do 3 eexists. reflexivity. }
  destruct Hshape as [x0 [x1 [t E]]]. rewrite E in *.
  apply (trapz_pos
           (fun m => alpha_para *
                     sqrt (1 + (1 - m ^ 2) * (alpha_perp ^ 2 / alpha_para ^ 2 - 1))));
    [ exact Hinc | exact Hpos ].
Qed.

Lemma increasing_scale (k : R) (l : list R) :
  0 < k -> increasing l -> increasing (map (fun x => x * k) l).
Proof.
  intros Hk. induction l as [| a [| b t] IH]; intros Hinc.
  - exact I.
  - exact I.
  - destruct Hinc as [Hab Hinc]. cbn [map]. split.
    + apply Rmult_lt_compat_r; assumption.
    + exact (IH Hinc).
Qed.

Lemma stretch_isotropic (a : R) : a <> 0 -> stretch a a = a.
Proof.
  intros Ha. unfold stretch.
  rewrite (map_ext _ (fun _ => a)).
  - rewrite trapz_const. change 100%nat with (S (S 98)).
    rewrite linspace_hd, linspace_last. ring.
  - intros m. replace (a ^ 2 / a ^ 2 - 1) with 0 by (field; exact Ha).
    rewrite Rmult_0_r, Rplus_0_r, sqrt_1. ring.
Qed.

(** X7. The rescaling step multiplies every radius by one factor that does
    not depend on the radius; for [alpha_para > 0] and [alpha_perp <> 0] the
    factor is positive, so a strictly increasing radius axis stays strictly
    increasing and of the same length. *)
Theorem rescaled_axis_order (alpha_perp alpha_para : R) (r : list R) :
  0 < alpha_para -> alpha_perp <> 0 -> increasing r ->
  rescaled_r alpha_perp alpha_para r
  = map (fun ri => ri * stretch alpha_perp alpha_para) r
  /\ 0 < stretch alpha_perp alpha_para
  /\ increasing (rescaled_r alpha_perp alpha_para r)
  /\ length (rescaled_r alpha_perp alpha_para r) = length r.
Proof.
  intros Hal Hap Hinc.
  assert (Hs := stretch_pos alpha_perp alpha_para Hal Hap).
  rewrite rescaled_r_scale.
  repeat split.
  - exact Hs.
  - apply increasing_scale; assumption.
  - apply length_map.
Qed.

Lemma rescaled_axis_order_witness :
  increasing (rescaled_r 2 1 knots4).
Proof.
  refine (proj1 (proj2 (proj2 (rescaled_axis_order 2 1 knots4 _ _
                                 knots4_increasing)))); lra.
Defined.

(** X8. An isotropic dilation [alpha_perp = alpha_para = a], [a <> 0],
    rescales every radius by exactly [a]. *)
Theorem rescaled_axis_isotropic (a : R) (r : list R) :
  a <> 0 -> rescaled_r a a r = map (fun ri => ri * a) r.
Proof.
  intros Ha. rewrite rescaled_r_scale, stretch_isotropic by exact Ha.
  reflexivity.
Qed.

Lemma rescaled_axis_isotropic_witness :
  rescaled_r 2 2 knots4 = map (fun ri => ri * 2) knots4.
Proof.
  apply rescaled_axis_isotropic. lra.
Defined.


Section Geometry.

Variable splev : nat -> list R -> list R -> R -> R.
Variable fsolve : (R -> R) -> R -> R.

(** The three evaluators compute the true angle cosine by the same
    expression. *)
Lemma true_mu_common (self : RSDModel) (k sigma_v alpha_perp alpha_para : R)
    (P1 : Spline * Spline * Spline * Spline) (P2 : Spline * Spline * Spline)
    (P3 : Spline * Spline * Spline * Spline * Spline * Spline) (s mu : R) :
  fst (model1_point splev self k sigma_v alpha_perp alpha_para P1 s mu)
  = s * mu * alpha_para / true_s_of alpha_perp alpha_para s mu
  /\ fst (model2_point splev k alpha_perp alpha_para P2 s mu)
     = s * mu * alpha_para / true_s_of alpha_perp alpha_para s mu
  /\ fst (model3_point splev fsolve self sigma_v alpha_perp alpha_para P3 s mu)
     = s * mu * alpha_para / true_s_of alpha_perp alpha_para s mu.
Proof.
  destruct P1 as [[[a1 a2] a3] a4]. destruct P2 as [[b1 b2] b3].
  destruct P3 as [[[[[c1 c2] c3] c4] c5] c6].
  unfold model1_point, model2_point, model3_point, true_s_of. cbn [fst].
  repeat split.
Qed.

(** X9. The linear model's prediction is mirror symmetric in the angle
    cosine: at [-mu] the true angle cosine changes sign and the predicted
    correlation is unchanged. *)
Theorem model2_point_mirror (k alpha_perp alpha_para : R)
    (P : Spline * Spline * Spline) (s mu : R) :
  fst (model2_point splev k alpha_perp alpha_para P s (- mu))
  = - fst (model2_point splev k alpha_perp alpha_para P s mu)
  /\ snd (model2_point splev k alpha_perp alpha_para P s (- mu))
     = snd (model2_point splev k alpha_perp alpha_para P s mu).
Proof.
  destruct P as [[p1 p2] p3]. unfold model2_point. cbn [fst snd].
  replace ((- mu) ^ 2) with (mu ^ 2) by ring.
  replace (s * - mu * alpha_para) with (- (s * mu * alpha_para)) by ring.
  replace ((- (s * mu * alpha_para)) ^ 2) with ((s * mu * alpha_para) ^ 2) by ring.
  set (T := sqrt ((s * mu * alpha_para) ^ 2
                  + (s * sqrt (1 - mu ^ 2) * alpha_perp) ^ 2)).
  replace (- (s * mu * alpha_para) / T) with (- (s * mu * alpha_para / T))
    by (unfold Rdiv; ring).
  replace ((- (s * mu * alpha_para / T)) ^ 2) with ((s * mu * alpha_para / T) ^ 2)
    by ring.
  split; reflexivity.
Qed.

(** X10. Without geometric distortion ([alpha_perp = alpha_para = 1]), at a
    positive separation and an angle cosine in [[-1, 1]], each of the three
    evaluators samples the prediction at the requested angle:
    [true_mu = mu]. *)
Theorem true_mu_identity (self : RSDModel) (k sigma_v : R)
    (P1 : Spline * Spline * Spline * Spline) (P2 : Spline * Spline * Spline)
    (P3 : Spline * Spline * Spline * Spline * Spline * Spline) (s mu : R) :
  0 < s -> -1 <= mu <= 1 ->
  fst (model1_point splev self k sigma_v 1 1 P1 s mu) = mu
  /\ fst (model2_point splev k 1 1 P2 s mu) = mu
  /\ fst (model3_point splev fsolve self sigma_v 1 1 P3 s mu) = mu.
Proof.
  intros Hs Hmu.
  destruct (true_mu_common self k sigma_v 1 1 P1 P2 P3 s mu) as [-> [-> ->]].
  rewrite true_s_identity by lra.
  repeat split; field; lra.
Qed.


End Geometry.

Lemma true_mu_identity_witness :
  fst (model2_point splev_ref 0 1 1 (flat4, flat4, flat4) 2 0.5) = 0.5.
Proof.
  refine (proj1 (proj2 (true_mu_identity splev_ref fsolve_ref (example_model 1)
                          0 1 (flat4, flat4, flat4, flat4) (flat4, flat4, flat4)
                          (flat4, flat4, flat4, flat4, flat4, flat4) 2 0.5 _ _)));
    lra.
Defined.


Section Outcomes.

Variable splev : nat -> list R -> list R -> R -> R.
Variable simps : list R -> list R -> R.
Variable fsolve : (R -> R) -> R -> R.

(** X12. Whenever a theory evaluator returns, it returns one monopole and
    one quadrupole per separation; [model1_theory] returns only on an
    instance that has a dispersion profile, [model3_theory] only on one that
    has the velocity profile, its derivative and the dispersion profile. *)
Theorem theory_evaluators_outcome (self : RSDModel)
    (fs8 sigma_v alpha_perp alpha_para : R) (s mu xi0 xi2 : list R) :
  (model1_theory splev simps self fs8 sigma_v alpha_perp alpha_para s mu
   = ret (xi0, xi2) ->
   sv self <> None /\ length xi0 = length s /\ length xi2 = length s)
  /\ (model2_theory splev simps self fs8 alpha_perp alpha_para s mu
      = ret (xi0, xi2) ->
      length xi0 = length s /\ length xi2 = length s)
  /\ (model3_theory splev simps fsolve self fs8 sigma_v alpha_perp alpha_para
                    s mu
      = ret (xi0, xi2) ->
      vr self <> None /\ dvr self <> None /\ sv self <> None
      /\ length xi0 = length s /\ length xi2 = length s).
Proof.
  split; [ | split ].
  - unfold model1_theory, model1_profiles.
    destruct (sv self) as [self_sv |]; cbn [attr bind ret raise];
      [ | discriminate ].
    intros H. injection H as <- <-. rewrite !length_map.
    repeat split. discriminate.
  - unfold model2_theory. cbn [ret].
    intros H. injection H as <- <-. rewrite !length_map. split; reflexivity.
  - unfold model3_theory, model3_profiles.
    destruct (vr self) as [a |]; cbn [attr bind ret raise]; [ | discriminate ].
    destruct (dvr self) as [b |]; cbn [attr bind ret raise];
      [ | discriminate ].
    destruct (sv self) as [c |]; cbn [attr bind ret raise]; [ | discriminate ].
    intros H. injection H as <- <-. rewrite !length_map.
    repeat split; discriminate.
Qed.

End Outcomes.

Lemma theory_evaluators_outcome_witness :
  exists xi0 xi2,
    model1_theory splev_ref simps_ref (example_model 1) 0.5 300 1 1
                  [10] [-1; -0.5; 0.5; 1]
    = ret (xi0, xi2)
    /\ length xi0 = 1%nat /\ length xi2 = 1%nat.
Proof.
  assert (H : exists xi0 xi2,
             model1_theory splev_ref simps_ref (example_model 1) 0.5 300 1 1
                           [10] [-1; -0.5; 0.5; 1]
             = ret (xi0, xi2)).
  { unfold model1_theory, model1_profiles.
    cbn [sv example_model attr bind ret]. do 2 eexists. reflexivity. }
  destruct H as [xi0 [xi2 H]]. exists xi0, xi2.
  split; [ exact H | ].
  exact (proj2 (proj1 (theory_evaluators_outcome splev_ref simps_ref
                         fsolve_ref (example_model 1) 0.5 300 1 1
                         [10] [-1; -0.5; 0.5; 1] xi0 xi2) H)).
Defined.

(** * Further properties of the correlation-function reader *)

Section ShortTable.

Variable data : list (list R).
Hypothesis Hwide : wide data.

Lemma inner_runs (i : nat) (n : nat) :
  forall j0 g c,
    (c + n <= length data)%nat ->
    exists g',
      foldM (fun j st1 =>
               v <- item_neg2 data (snd st1) ;;
               ret (set2 (fst st1) j i v, S (snd st1)))
            (seq j0 n) (g, c)
      = ret (g', (c + n)%nat).
Proof.
  induction n as [| n IH]; intros j0 g c Hc.
  - exists g. cbn [seq foldM]. rewrite Nat.add_0_r. reflexivity.
  - cbn [seq foldM]. cbn [snd fst].
    rewrite (item_neg2_ok data c Hwide) by lia. cbn [bind ret].
    destruct (IH (S j0) (set2 g j0 i (cell data c)) (S c)) as [g' Hrun];
      [ lia | ].
    exists g'. rewrite Hrun. f_equal. f_equal. lia.
Qed.

Lemma inner_short (i : nat) (n : nat) :
  forall j0 g c,
    (c <= length data)%nat -> (length data < c + n)%nat ->
    foldM (fun j st1 =>
             v <- item_neg2 data (snd st1) ;;
             ret (set2 (fst st1) j i v, S (snd st1)))
          (seq j0 n) (g, c)
    = raise IndexError.
Proof.
  induction n as [| n IH]; intros j0 g c Hc Hn; [ lia | ].
  cbn [seq foldM]. cbn [snd fst].
  destruct (Nat.eq_dec c (length data)) as [-> | Hne].
  - unfold item_neg2.
    rewrite (proj2 (nth_error_None data (length data))) by lia. reflexivity.
  - rewrite (item_neg2_ok data c Hwide) by lia. cbn [bind ret].
    apply IH; lia.
Qed.

Lemma outer_short (ns : nat) (m : nat) :
  forall i0 g c,
    (c <= length data)%nat -> (length data < c + m * ns)%nat ->
    foldM (fun i st0 =>
             foldM (fun j st1 =>
                      v <- item_neg2 data (snd st1) ;;
                      ret (set2 (fst st1) j i v, S (snd st1)))
                   (seq 0 ns) st0)
          (seq i0 m) (g, c)
    = raise IndexError.
Proof.
  induction m as [| m IH]; intros i0 g c Hc Hn; [ simpl in Hn; lia | ].
  cbn [seq foldM].
  destruct (Nat.le_gt_cases (c + ns) (length data)) as [Hfit | Hover].
  - destruct (inner_runs i0 ns 0 g c Hfit) as [g' Hrun].
    rewrite Hrun. cbn [bind ret].
    apply IH; [ lia | simpl in Hn; lia ].
  - rewrite (inner_short i0 ns 0 g c Hc Hover). reflexivity.
Qed.

End ShortTable.


Lemma unique_pair : np_unique [1; 2] = [1; 2].
Proof.
  unfold np_unique. simpl.
  repeat match goal with
         | |- context [Rlt_dec ?a ?b] => destruct (Rlt_dec a b); try lra; simpl
         end.
  reflexivity.
Qed.

Lemma unique_pair_mu : np_unique [0.1; 0.2] = [0.1; 0.2].
Proof.
  unfold np_unique. simpl.
  repeat match goal with
         | |- context [Rlt_dec ?a ?b] => destruct (Rlt_dec a b); try lra; simpl
         end.
  reflexivity.
Qed.

(** C10 as stated fails in two ways.  On bare [(s, mu, xi)] triples the grid
    holds the angle cosines: entry [0, 0] is 0.1, the second field of the
    first row, not its correlation value 5.  And a table that lacks a row for
    some cell (two rows for a two-by-two grid) gives no grid at all. *)
Lemma readCorrFile_grid_counterexample :
  array2d 3 triples_table
  /\ readCorrFile triples_table
     = ret ([1; 2], [0.1; 0.2], [[0.1; 0.2]; [0.1; 0.2]])
  /\ entry [[0.1; 0.2]; [0.1; 0.2]] 0 0
     <> nth 2 (nth (0 * 2 + 0) triples_table []) 0
  /\ array2d 4 [[1; 0.1; 5; 0]; [2; 0.2; 6; 0]]
  /\ readCorrFile [[1; 0.1; 5; 0]; [2; 0.2; 6; 0]] = raise IndexError.
Proof.
  assert (H2d : array2d 3 triples_table).
  { unfold array2d, triples_table.
    split; [ simpl; lia | ]. split; [ lia | ]. repeat constructor. }
  assert (E0 : np_unique (col 0 triples_table) = [1; 2]).
  { unfold triples_table, col. cbn [map nth]. exact unique_12. }
  assert (E1 : np_unique (col 1 triples_table) = [0.1; 0.2]).
  { unfold triples_table, col. cbn [map nth]. exact unique_mu. }
  split; [ exact H2d | ]. split; [ | split; [ | split ] ].
  - destruct (readCorrFile_cells 3 triples_table H2d)
      as [g [Hrun [Hshape Hentry]]].
    { rewrite E0, E1. simpl. lia. }
    rewrite E0, E1 in *. cbn [length] in *.
    rewrite Hrun. do 2 f_equal.
    apply (grid_ext 2 2); [ | exact Hshape | ].
    + split; [ reflexivity | ].
      intros j Hj. destruct j as [| [| j]]; simpl in *; try reflexivity; lia.
    + intros i j Hi Hj. rewrite (Hentry i j Hi Hj).
      destruct i as [| [| i]]; [ | | lia ];
        (destruct j as [| [| j]]; [ | | lia ]); reflexivity.
  - unfold entry, triples_table. cbn [nth Nat.add Nat.mul]. lra.
  - unfold array2d.
    split; [ simpl; lia | ]. split; [ lia | ]. repeat constructor.
  - assert (Hw : wide [[1; 0.1; 5; 0]; [2; 0.2; 6; 0]])
      by (repeat constructor).
    unfold readCorrFile.
    rewrite (column_ok 0 _ Hw) by lia. cbn [bind ret].
    rewrite (column_ok 1 _ Hw) by lia. cbn [bind ret].
    unfold col. cbn [map nth]. rewrite unique_pair, unique_pair_mu.
    rewrite (outer_short _ Hw); [ reflexivity | simpl; lia | simpl; lia ].
Qed.


Lemma increasing_hd_lt (a : R) (t : list R) (x : R) :
  increasing (a :: t) -> In x t -> a < x.
Proof.
  revert a. induction t as [| b t IH]; intros a Hinc Hin; [ destruct Hin | ].
  destruct Hinc as [Hab Hinc]. destruct Hin as [<- | Hin]; [ exact Hab | ].
  apply Rlt_trans with b; [ exact Hab | apply IH; assumption ].
Qed.

Lemma increasing_ext (l1 l2 : list R) :
  increasing l1 -> increasing l2 -> (forall x, In x l1 <-> In x l2) -> l1 = l2.
Proof.
  revert l2. induction l1 as [| a t1 IH]; intros [| b t2] H1 H2 Hset.
  - reflexivity.
  - destruct (proj2 (Hset b) (or_introl eq_refl)).
  - destruct (proj1 (Hset a) (or_introl eq_refl)).
  - assert (Hab : a = b).
    { destruct (proj1 (Hset a) (or_introl eq_refl)) as [E | Ha]; [ auto | ].
      destruct (proj2 (Hset b) (or_introl eq_refl)) as [E | Hb]; [ auto | ].
      assert (b < a) by (apply (increasing_hd_lt b t2); assumption).
      assert (a < b) by (apply (increasing_hd_lt a t1); assumption).
      lra. }
    subst b. f_equal.
    apply IH; [ exact (increasing_tail _ _ H1) | exact (increasing_tail _ _ H2) | ].
    intros x. split; intros Hx.
    + destruct (proj1 (Hset x) (or_intror Hx)) as [E | Hx']; [ | exact Hx' ].
      assert (a < x) by (apply (increasing_hd_lt a t1); assumption). lra.
    + destruct (proj2 (Hset x) (or_intror Hx)) as [E | Hx']; [ | exact Hx' ].
      assert (a < x) by (apply (increasing_hd_lt a t2); assumption). lra.
Qed.

Lemma length_flat_map_const {A B : Type} (f : A -> list B) (n : nat) (l : list A) :
  (forall x, length (f x) = n) -> length (flat_map f l) = (length l * n)%nat.
Proof.
  intros Hf. induction l as [| x l IH]; [ reflexivity | ].
  cbn [flat_map length]. rewrite length_app, Hf, IH. simpl. reflexivity.
Qed.

Lemma nth_flat_map_block {B : Type} (f : nat -> list B) (n : nat) (d : B) :
  (forall x, length (f x) = n) ->
  forall m k i j, (i < m)%nat -> (j < n)%nat ->
    nth (i * n + j) (flat_map f (seq k m)) d = nth j (f (k + i)%nat) d.
Proof.
  intros Hf. induction m as [| m IH]; intros k i j Hi Hj; [ lia | ].
  cbn [seq flat_map]. destruct i as [| i].
  - rewrite app_nth1 by (rewrite Hf; simpl; lia).
    rewrite Nat.add_0_r. reflexivity.
  - rewrite app_nth2 by (rewrite Hf; simpl; lia).
    rewrite Hf.
    replace (S i * n + j - n)%nat with (i * n + j)%nat by (simpl; lia).
    rewrite IH by lia. f_equal. f_equal. lia.
Qed.

Section RoundTrip.

Variables s mu : list R.
Variable g : list (list R).
Hypothesis Hs : increasing s.
Hypothesis Hmu : increasing mu.
Hypothesis Hrows : (2 <= length mu * length s)%nat.

Lemma table_s_positive : (0 < length s)%nat.
Proof. nia. Qed.

Lemma table_mu_positive : (0 < length mu)%nat.
Proof. nia. Qed.

Lemma table_row_length (i : nat) :
  length (map (fun j => [nth j s 0; nth i mu 0; entry g j i; 0])
              (seq 0 (length s)))
  = length s.
Proof. rewrite length_map, length_seq. reflexivity. Qed.

Lemma table_length :
  length (table_of_grid s mu g) = (length mu * length s)%nat.
Proof.
  unfold table_of_grid.
  rewrite (length_flat_map_const _ (length s)) by apply table_row_length.
  rewrite length_seq. reflexivity.
Qed.

Lemma table_row (i j : nat) :
  (i < length mu)%nat -> (j < length s)%nat ->
  nth (i * length s + j) (table_of_grid s mu g) []
  = [nth j s 0; nth i mu 0; entry g j i; 0].
Proof.
  intros Hi Hj. unfold table_of_grid.
  rewrite (nth_flat_map_block _ (length s) [] table_row_length) by assumption.
  cbn [Nat.add].
  rewrite (nth_indep _ [] [nth 0 s 0; nth i mu 0; entry g 0 i; 0])
    by (rewrite table_row_length; exact Hj).
  rewrite (map_nth (fun j0 => [nth j0 s 0; nth i mu 0; entry g j0 i; 0])
                   (seq 0 (length s)) 0%nat j).
  rewrite seq_nth by exact Hj. reflexivity.
Qed.

Lemma table_rows (row : list R) :
  In row (table_of_grid s mu g) <->
  exists i j, (i < length mu)%nat /\ (j < length s)%nat
              /\ row = [nth j s 0; nth i mu 0; entry g j i; 0].
Proof.
  unfold table_of_grid. rewrite in_flat_map. split.
  - intros [i [Hi Hrow]]. apply in_map_iff in Hrow.
    destruct Hrow as [j [<- Hj]]. apply in_seq in Hi, Hj.
    exists i, j. repeat split; lia.
  - intros [i [j [Hi [Hj ->]]]]. exists i. split; [ apply in_seq; lia | ].
    apply in_map_iff. exists j. split; [ reflexivity | apply in_seq; lia ].
Qed.

Lemma table_wide : wide (table_of_grid s mu g).
Proof.
  apply Forall_forall. intros row Hrow. apply table_rows in Hrow.
  destruct Hrow as [i [j [_ [_ ->]]]]. simpl. lia.
Qed.

Lemma table_col0 : np_unique (col 0 (table_of_grid s mu g)) = s.
Proof.
  apply increasing_ext; [ apply np_unique_increasing | exact Hs | ].
  intros x. rewrite np_unique_In. unfold col. rewrite in_map_iff. split.
  - intros [row [<- Hrow]]. apply table_rows in Hrow.
    destruct Hrow as [i [j [_ [Hj ->]]]]. cbn [nth]. apply nth_In. exact Hj.
  - intros Hx. destruct (In_nth _ _ 0 Hx) as [j [Hj <-]].
    exists [nth j s 0; nth 0 mu 0; entry g j 0; 0]. split; [ reflexivity | ].
    apply table_rows. exists 0%nat, j.
    repeat split; [ exact table_mu_positive | exact Hj ].
Qed.

Lemma table_col1 : np_unique (col 1 (table_of_grid s mu g)) = mu.
Proof.
  apply increasing_ext; [ apply np_unique_increasing | exact Hmu | ].
  intros x. rewrite np_unique_In. unfold col. rewrite in_map_iff. split.
  - intros [row [<- Hrow]]. apply table_rows in Hrow.
    destruct Hrow as [i [j [Hi [_ ->]]]]. cbn [nth]. apply nth_In. exact Hi.
  - intros Hx. destruct (In_nth _ _ 0 Hx) as [i [Hi <-]].
    exists [nth 0 s 0; nth i mu 0; entry g 0 i; 0]. split; [ reflexivity | ].
    apply table_rows. exists i, 0%nat.
    repeat split; [ exact Hi | exact table_s_positive ].
Qed.

Lemma table_read :
  shaped (length s) (length mu) g ->
  readCorrFile (table_of_grid s mu g) = ret (s, mu, g).
Proof.
  intros Hg.
  assert (Hw := table_wide).
  destruct (outer_loop (table_of_grid s mu g) (length s) (length mu) Hw
              (length mu) 0%nat (np_zeros2 (length s) (length mu)) 0%nat)
    as [g' [Hrun [Hshape [Hin _]]]];
    [ lia | rewrite table_length; lia | apply zeros2_shaped | ].
  assert (Hgg : g' = g).
  { apply (grid_ext (length s) (length mu)); [ exact Hg | exact Hshape | ].
    intros i j Hi Hj. rewrite (Hin i j) by lia.
    unfold cell. cbn [Nat.add]. rewrite Nat.sub_0_r.
    rewrite (table_row i j Hi Hj). reflexivity. }
  unfold readCorrFile.
  rewrite (column_ok 0 _ Hw) by lia. cbn [bind ret].
  rewrite (column_ok 1 _ Hw) by lia. cbn [bind ret].
  rewrite table_col0, table_col1, Hrun. cbn [bind ret fst]. rewrite Hgg.
  reflexivity.
Qed.

(** X15. Listing a grid of at least two cells with [mu] outermost gives a
    table with one row of four fields per cell, and reading that table back
    returns the separations, the angle cosines and the grid one started
    from. *)
Theorem readCorrFile_round_trip :
  shaped (length s) (length mu) g ->
  length (table_of_grid s mu g) = (length mu * length s)%nat
  /\ Forall (fun row => length row = 4%nat) (table_of_grid s mu g)
  /\ readCorrFile (table_of_grid s mu g) = ret (s, mu, g).
Proof.
  intros Hg. split; [ apply table_length | ].
  split; [ | apply table_read; exact Hg ].
  apply Forall_forall. intros row Hrow. apply table_rows in Hrow.
  destruct Hrow as [i [j [_ [_ ->]]]]. reflexivity.
Qed.

End RoundTrip.

Lemma readCorrFile_round_trip_witness :
  readCorrFile (table_of_grid [1; 2] [0.1; 0.2] [[5; 7]; [6; 8]])
  = ret ([1; 2], [0.1; 0.2], [[5; 7]; [6; 8]]).
Proof.
  refine (proj2 (proj2 (readCorrFile_round_trip [1; 2] [0.1; 0.2]
                          [[5; 7]; [6; 8]] _ _ _ _))).
  - simpl. lra.
  - simpl. lra.
  - simpl. lia.
  - split; [ reflexivity | ].
    intros j Hj. destruct j as [| [| j]]; simpl in *; try reflexivity; lia.
Defined.

(** * Properties of the constructor *)

Lemma liftI_inr {A : Type} (c : M A) (a : A) : liftI c = inr a -> c = inr a.
Proof.
  destruct c; cbn; intros H; [ discriminate H | injection H as -> ].
  reflexivity.
Qed.

Lemma mapM_length {A B : Type} (f : A -> M B) (l : list A) (l' : list B) :
  mapM f l = inr l' -> length l' = length l.
Proof.
  revert l'. induction l as [| a l IH]; intros l' H; cbn [mapM] in H.
  - injection H as <-. reflexivity.
  - destruct (f a); cbn [bind ret] in H; [ discriminate H | ].
    destruct (mapM f l); cbn [bind ret] in H; [ discriminate H | ].
    injection H as <-. cbn [length]. f_equal. apply IH. reflexivity.
Qed.

Lemma mask_inr {A : Type} (a : list A) (idx : list bool) (l : list A) :
  mask a idx = inr l -> length a = length idx /\ l = select a idx.
Proof.
  unfold mask. destruct (Nat.eqb (length a) (length idx)) eqn:E; intros H.
  - apply Nat.eqb_eq in E. injection H as <-. split; [ exact E | reflexivity ].
  - discriminate H.
Qed.

Lemma length_select {A : Type} (a : list A) (idx : list bool) :
  length a = length idx ->
  length (select a idx) = length (filter (fun b => b) idx).
Proof.
  revert idx. induction a as [| x a IH]; intros [| b idx] H; simpl in *;
    try discriminate; [ reflexivity | ].
  destruct b; simpl; rewrite IH by lia; reflexivity.
Qed.

Lemma select_map_filter {A : Type} (f : A -> bool) (l : list A) :
  select l (map f l) = filter f l.
Proof.
  induction l as [| x l IH]; [ reflexivity | ].
  cbn [map select filter]. rewrite IH. reflexivity.
Qed.

Lemma increasing_filter (f : R -> bool) (l : list R) :
  increasing l -> increasing (filter f l).
Proof.
  induction l as [| a l IH]; intros Hinc; [ exact I | ].
  cbn [filter]. assert (Htl := increasing_tail _ _ Hinc).
  destruct (f a); [ | exact (IH Htl) ].
  apply increasing_cons; [ | exact (IH Htl) ].
  intros Hne. apply (increasing_hd_lt a l); [ exact Hinc | ].
  destruct (filter f l) as [| b t] eqn:E; [ contradiction | ].
  assert (Hb : In b (filter f l)) by (rewrite E; left; reflexivity).
  apply filter_In in Hb. exact (proj1 Hb).
Qed.

Lemma Rleb_true (x y : R) : Rleb x y = true <-> x <= y.
Proof. unfold Rleb. destruct (Rle_dec x y); split; intros; try easy. Qed.

Lemma readCorrFile_sorted (data : list (list R)) (s mu : list R)
    (g : list (list R)) :
  readCorrFile data = inr (s, mu, g) -> increasing s /\ increasing mu.
Proof.
  unfold readCorrFile.
  destruct (column 0 data); cbn [bind]; [ intros H; discriminate H | ].
  destruct (column 1 data); cbn [bind]; [ intros H; discriminate H | ].
  destruct (foldM _ _ _); cbn [bind ret]; [ intros H; discriminate H | ].
  intros H. injection H as <- <- _.
  split; apply np_unique_increasing.
Qed.

Lemma column_neg2_ok (data : list (list R)) :
  wide data -> exists l, column_neg2 data = ret l.
Proof.
  intros Hw. unfold column_neg2.
  induction Hw as [| row data Hrow Hw IH]; [ exists []; reflexivity | ].
  destruct IH as [l Hl]. cbn [mapM].
  rewrite (proj2 (Nat.leb_le _ _) Hrow).
  rewrite (nth_error_nth' row 0) by lia. cbn [bind ret].
  rewrite Hl. cbn [bind ret]. eexists. reflexivity.
Qed.

Lemma col_length (k : nat) (data : list (list R)) :
  length (col k data) = length data.
Proof. unfold col. apply length_map. Qed.

Lemma mask_same_length {A : Type} (a : list A) (idx : list bool) :
  length a = length idx -> mask a idx = ret (select a idx).
Proof. intros H. unfold mask. rewrite H, Nat.eqb_refl. reflexivity. Qed.

Lemma getMonopole_fst (splev : nat -> list R -> list R -> R -> R)
    (simps : list R -> list R -> R) (s mu : list R) (g : list (list R)) :
  fst (_getMonopole splev simps s mu g) = s.
Proof. reflexivity. Qed.

Lemma getQuadrupole_fst (splev : nat -> list R -> list R -> R -> R)
    (simps : list R -> list R -> R) (s mu : list R) (g : list (list R)) :
  fst (_getQuadrupole splev simps s mu g) = s.
Proof. reflexivity. Qed.

Section ConstructorProps.

Variable splev : nat -> list R -> list R -> R -> R.
Variable simps : list R -> list R -> R.
Variable get_growth : R -> R -> R -> R.
Variable get_f : R -> R -> R -> R.
Variable linalg_inv : list (list R) -> option (list (list R)).
Variable quad : (R -> R) -> R -> R -> R.
Variable savgol_filter : list R -> nat -> nat -> list R.
Variable np_gradient : list R -> list R -> list R.

Ltac invert_binds H :=
  repeat match type of H with
         | context [bindI ?c _] =>
             destruct c eqn:?; cbn [bindI] in H; [ discriminate H | ]
         | context [let '(_, _) := ?c in _] => destruct c eqn:?
         end.

Lemma init_sv_inr (files : InitFiles) (args : InitArgs)
    (o : option (list R * Spline)) :
  init_sv savgol_filter files args = inr o ->
  ((arg_model args = 1%Z \/ arg_model args = 3%Z) ->
   exists r sp, o = Some (r, sp) /\ sp_ext sp = Const
                /\ length r = length (sv_table files)
                /\ (arg_const_sv args = true \/ sv_table files <> []))
  /\ (arg_model args <> 1%Z -> arg_model args <> 3%Z -> o = None).
Proof.
  unfold init_sv. intros H.
  destruct ((arg_model args =? 1)%Z || (arg_model args =? 3)%Z) eqn:E.
  - split.
    + intros _.
      destruct (liftI (column 0 (sv_table files))) as [e | r] eqn:Hc;
        cbn [bindI] in H; [ discriminate H | ].
      apply liftI_inr in Hc.
      match type of H with
      | context [bindI ?c _] => destruct c as [e | sv_values] eqn:Hv;
                                cbn [bindI] in H; [ discriminate H | ]
      end.
      injection H as <-.
      do 2 eexists. split; [ reflexivity | ]. split; [ reflexivity | ].
      split; [ exact (mapM_length _ _ _ Hc) | ].
      destruct (arg_const_sv args); [ left; reflexivity | right ].
      invert_binds Hv. intros Hnil. rewrite Hnil in *.
      match goal with
      | Hl : liftI (last_neg2 []) = inr _ |- _ => discriminate Hl
      end.
    + intros H1 H3. apply Z.eqb_neq in H1, H3. rewrite H1, H3 in E.
      discriminate E.
  - injection H as <-. split; [ | reflexivity ].
    intros [Hm | Hm]; rewrite Hm in E; discriminate E.
Qed.

Lemma init_vr_inr (files : InitFiles) (args : InitArgs)
    (o : option (list R * Spline * Spline)) :
  init_vr np_gradient files args = inr o ->
  (arg_model args = 3%Z ->
   exists r v d, o = Some (r, v, d) /\ sp_ext v = Const /\ sp_ext d = Const)
  /\ (arg_model args <> 3%Z -> o = None).
Proof.
  unfold init_vr. intros H.
  destruct (arg_model args =? 3)%Z eqn:E.
  - split.
    + intros _. invert_binds H. injection H as <-.
      do 3 eexists. repeat split.
    + intros H3. apply Z.eqb_neq in H3. rewrite H3 in E. discriminate E.
  - injection H as <-. split; [ | reflexivity ].
    intros Hm. rewrite Hm in E. discriminate E.
Qed.

(** What a successful construction implies. *)
Lemma init_inversion (files : InitFiles) (args : InitArgs)
    (self : RSDModel) (aux : RSDAux) :
  init splev simps get_growth get_f linalg_inv quad savgol_filter np_gradient
       files args = inr (self, aux) ->
  (arg_model args = 1%Z \/ arg_model args = 3%Z)
  /\ model self = arg_model args
  /\ nmocks self = 300%Z
  /\ (sp_ext (xi_r self) = Const /\ sp_ext (delta_r self) = Const
      /\ sp_ext (Delta_r self) = Const
      /\ exists sp, sv self = Some sp /\ sp_ext sp = Const)
  /\ (exists s g,
         readCorrFile (xi_smu_table files) = ret (s, mu_for_xi self, g)
         /\ s_for_xi self
            = filter (fun si => Rleb (arg_smin args) si
                                && Rleb si (arg_smax args)) s
         /\ length (xi_r_table files) = length s
         /\ length (delta_r_table files) = length s
         /\ length (sv_table files) = length s
         /\ (arg_const_sv args = true \/ s <> []))
  /\ length (r_for_delta self) = length (s_for_xi self)
  /\ length (datavec self) = modelvec_length self.
Proof.
  intros H. unfold init in H. invert_binds H.
  repeat match goal with
         | Hl : liftI _ = inr _ |- _ => apply liftI_inr in Hl
         end.
  repeat match goal with
         | Hm : mask _ _ = inr _ |- _ =>
             apply mask_inr in Hm; destruct Hm as [? ?]
         end.
  repeat match goal with
         | Hg : _getMonopole _ _ _ _ _ = (_, _) |- _ =>
             apply (f_equal fst) in Hg;
             rewrite getMonopole_fst in Hg; cbn [fst] in Hg
         | Hg : _getQuadrupole _ _ _ _ _ = (_, _) |- _ =>
             apply (f_equal fst) in Hg;
             rewrite getQuadrupole_fst in Hg; cbn [fst] in Hg
         end.
  match goal with
  | Hsv : init_sv _ _ _ = inr ?o, Ha : attr (option_map fst ?o) = inr _ |- _ =>
      destruct (init_sv_inr _ _ _ Hsv) as [Hsome Hnone];
      assert (Hmodel : arg_model args = 1%Z \/ arg_model args = 3%Z)
  end.
  { destruct (Z.eq_dec (arg_model args) 1) as [E1 | E1]; [ left; exact E1 | ].
    destruct (Z.eq_dec (arg_model args) 3) as [E3 | E3]; [ right; exact E3 | ].
    exfalso.
    match goal with
    | Ha : attr (option_map fst ?o) = inr _ |- _ =>
        rewrite (Hnone E1 E3) in Ha; discriminate Ha
    end. }
  destruct (Hsome Hmodel) as [r_sv [sp [Eo [Hext [Hsvlen Hsvne]]]]].
  match goal with
  | Ha : attr (option_map fst _) = inr _ |- _ =>
      rewrite Eo in Ha; cbn [option_map fst attr ret] in Ha; injection Ha as Ha
  end.
  injection H as <- <-. cbn [model nmocks xi_r delta_r Delta_r sv mu_for_xi
                              s_for_xi r_for_delta datavec full_fit].
  subst.
  match goal with
  | Hc : column 0 (xi_r_table files) = inr ?l |- _ =>
      assert (Hxi := mapM_length _ _ _ Hc)
  end.
  match goal with
  | Hc : column 0 (delta_r_table files) = inr ?l |- _ =>
      assert (Hdelta := mapM_length _ _ _ Hc)
  end.
  rewrite ?length_map in *.
  split; [ exact Hmodel | ].
  split; [ reflexivity | ].
  split; [ reflexivity | ].
  split.
  { repeat split. exists sp. split; [ reflexivity | exact Hext ]. }
  split.
  { do 2 eexists. split; [ eassumption | ].
    split; [ apply select_map_filter | ].
    split; [ congruence | ]. split; [ congruence | ]. split; [ congruence | ].
    destruct Hsvne as [Hc | Hne]; [ left; exact Hc | right ].
    intros Hnil. apply Hne. apply length_zero_iff_nil.
    rewrite Hnil in *. simpl in *. congruence. }
  unfold modelvec_length. cbn [full_fit s_for_xi].
  repeat rewrite length_select by (rewrite ?length_map; congruence).
  split; [ reflexivity | ].
  destruct (negb (arg_full_fit args =? 0)%Z).
  - rewrite length_app.
    repeat rewrite length_select by (rewrite ?length_map; congruence). lia.
  - rewrite length_select by (rewrite ?length_map; congruence). reflexivity.
Qed.

End ConstructorProps.

Lemma last_neg2_ok (data : list (list R)) :
  wide data -> data <> [] -> exists d, last_neg2 data = ret d.
Proof.
  intros Hw Hne. destruct data as [| row data]; [ contradiction | ].
  unfold last_neg2. eexists. apply item_neg2_ok; [ exact Hw | simpl; lia ].
Qed.

Section ConstructorTheorems.

Variable splev : nat -> list R -> list R -> R -> R.
Variable simps : list R -> list R -> R.
Variable get_growth : R -> R -> R -> R.
Variable get_f : R -> R -> R -> R.
Variable linalg_inv : list (list R) -> option (list (list R)).
Variable quad : (R -> R) -> R -> R -> R.
Variable savgol_filter : list R -> nat -> nat -> list R.
Variable np_gradient : list R -> list R -> list R.

(** X16. For a model id other than 1 and 3 the constructor never returns
    an instance: no dispersion profile is loaded for such an id, and the
    fitting-window restriction of [self.r_for_sv] (line 119) is not
    conditional on the id. *)
Theorem init_other_models_fail (files : InitFiles) (args : InitArgs) :
  arg_model args <> 1%Z -> arg_model args <> 3%Z ->
  forall self aux,
    init splev simps get_growth get_f linalg_inv quad savgol_filter
         np_gradient files args <> inr (self, aux).
Proof.
  intros H1 H3 self aux H.
  destruct (init_inversion _ _ _ _ _ _ _ _ _ _ _ _ H) as [[E | E] _];
    contradiction.
Qed.

(** X17. What holds of every instance the constructor returns: the model id
    is 1 or 3 and there are 300 mocks; every loaded profile holds its
    boundary value outside its range; the fitted separations are strictly
    increasing and inside [[smin, smax]], the angle cosines strictly
    increasing; the restricted radius axis has one entry per fitted
    separation and [datavec] has the length of the model vector; and the
    three profile tables have the same number of rows. *)
Theorem init_success_invariants (files : InitFiles) (args : InitArgs)
    (self : RSDModel) (aux : RSDAux) :
  init splev simps get_growth get_f linalg_inv quad savgol_filter np_gradient
       files args = inr (self, aux) ->
  (model self = 1%Z \/ model self = 3%Z)
  /\ nmocks self = 300%Z
  /\ (sp_ext (xi_r self) = Const /\ sp_ext (delta_r self) = Const
      /\ sp_ext (Delta_r self) = Const
      /\ exists sp, sv self = Some sp /\ sp_ext sp = Const)
  /\ increasing (s_for_xi self)
  /\ Forall (fun si => arg_smin args <= si <= arg_smax args) (s_for_xi self)
  /\ increasing (mu_for_xi self)
  /\ length (r_for_delta self) = length (s_for_xi self)
  /\ length (datavec self) = modelvec_length self
  /\ length (xi_r_table files) = length (delta_r_table files)
  /\ length (sv_table files) = length (xi_r_table files).
Proof.
  intros H.
  destruct (init_inversion _ _ _ _ _ _ _ _ _ _ _ _ H)
    as [Hmodel [Hid [Hn [Hext [[s [g [Hread [Hs [Hlx [Hld [Hls _]]]]]]]
                               [Hr Hd]]]]]].
  destruct (readCorrFile_sorted _ _ _ _ Hread) as [Hinc Hmu].
  split; [ rewrite Hid; exact Hmodel | ].
  split; [ exact Hn | ]. split; [ exact Hext | ].
  split; [ rewrite Hs; apply increasing_filter; exact Hinc | ].
  split.
  { rewrite Hs. apply Forall_forall. intros x Hx. apply filter_In in Hx.
    destruct Hx as [_ Hx]. apply andb_true_iff in Hx. destruct Hx as [Ha Hb].
    apply Rleb_true in Ha, Hb. split; assumption. }
  split; [ exact Hmu | ]. split; [ exact Hr | ]. split; [ exact Hd | ].
  split; congruence.
Qed.

(** X18. The data vector the constructor builds always fits the model
    vector: on an instance it returned, whose inverse covariance has the
    shape of its data vector, [log_likelihood] returns whenever the
    evaluator does; a model-3 instance gives no log-likelihood, whatever the
    vector. *)
Theorem init_then_likelihood (files : InitFiles) (args : InitArgs)
    (self : RSDModel) (aux : RSDAux) :
  init splev simps get_growth get_f linalg_inv quad savgol_filter np_gradient
       files args = inr (self, aux) ->
  (length (icov self) = length (datavec self) ->
   length (hd [] (icov self)) = length (datavec self) ->
   forall theta xi0 xi2,
     predicted_multipoles splev simps self theta = ret (xi0, xi2) ->
     exists l, log_likelihood splev simps self theta = ret l)
  /\ (model self = 3%Z ->
      forall theta, exists e, log_likelihood splev simps self theta = raise e).
Proof.
  intros H.
  destruct (init_inversion _ _ _ _ _ _ _ _ _ _ _ _ H)
    as [_ [_ [_ [_ [_ [_ Hd]]]]]].
  split.
  - intros Hrows Hcols theta xi0 xi2 Hpred.
    exact (log_likelihood_runs splev simps self theta xi0 xi2 Hpred
             Hd Hrows Hcols).
  - intros Hm theta.
    unfold log_likelihood, predicted_multipoles, unpack_theta. rewrite Hm.
    destruct theta as [| a [| b [| c t]]]; eexists; reflexivity.
Qed.

(** X19. The constructor returns only when the correlation table reads as
    a grid and each of the three profile tables has exactly one row per
    distinct separation of that table; the instance then keeps the table's
    angle cosines and the separations inside the fitting window. *)
Theorem init_table_rows (files : InitFiles) (args : InitArgs)
    (self : RSDModel) (aux : RSDAux) :
  init splev simps get_growth get_f linalg_inv quad savgol_filter np_gradient
       files args = inr (self, aux) ->
  exists s g,
    readCorrFile (xi_smu_table files) = ret (s, mu_for_xi self, g)
    /\ s_for_xi self
       = filter (fun si => Rleb (arg_smin args) si && Rleb si (arg_smax args))
                s
    /\ length (xi_r_table files) = length s
    /\ length (delta_r_table files) = length s
    /\ length (sv_table files) = length s.
Proof.
  intros H.
  destruct (init_inversion _ _ _ _ _ _ _ _ _ _ _ _ H)
    as [_ [_ [_ [_ [[s [g [Hread [Hs [Hlx [Hld [Hls _]]]]]]] _]]]]].
  exists s, g. repeat split; assumption.
Qed.

End ConstructorTheorems.

(** *** An example construction *)

Lemma profile_table_wide : wide profile_table.
Proof. unfold wide, profile_table. repeat constructor. Qed.

Lemma grid4_shaped : shaped 4 4 grid4.
Proof.
  split; [ reflexivity | ].
  intros j Hj. destruct j as [| [| [| [| j]]]]; try reflexivity. lia.
Qed.

Lemma example_reads :
  readCorrFile grid_table = ret (knots4, [-1; -0.5; 0.5; 1], grid4).
Proof.
  unfold grid_table. apply table_read.
  - exact knots4_increasing.
  - simpl. lra.
  - simpl. lia.
  - exact grid4_shaped.
Qed.

Lemma window_keeps_knots4 :
  filter (fun si => Rleb 0 si && Rleb si 100) knots4 = knots4.
Proof.
  unfold knots4. cbn [filter].
  repeat rewrite (proj2 (Rleb_true _ _)) by lra. reflexivity.
Qed.

(** The constructor on the example files: every table has four rows with
    the radii 1..4, the correlation table a four-by-four grid. *)
Lemma example_init :
  exists self aux,
    init splev_ref simps_ref growth_ref growth_ref inv_ref quad_ref savgol_ref
         gradient_ref example_files (example_args 1) = inr (self, aux)
    /\ model self = 1%Z /\ icov self = identity 8
    /\ full_fit self = true.
Proof.
  destruct (column_neg2_ok _ profile_table_wide) as [vx Hvx].
  destruct (last_neg2_ok profile_table profile_table_wide) as [den Hden];
    [ discriminate | ].
  unfold init.
  change (covmat example_files) with (Some (identity 8)).
  change (xi_r_table example_files) with profile_table.
  change (delta_r_table example_files) with profile_table.
  change (xi_smu_table example_files) with grid_table.
  cbn [bindI]. unfold inv_ref. cbn [bindI].
  rewrite (column_ok 0 _ profile_table_wide), Hvx by lia.
  cbn [liftI ret bindI].
  unfold init_sv. change (sv_table example_files) with profile_table.
  cbn [arg_model arg_const_sv example_args Z.eqb Pos.eqb orb].
  rewrite (column_ok 0 _ profile_table_wide), Hvx, Hden by lia.
  cbn [liftI ret bindI].
  unfold init_vr. cbn [arg_model example_args Z.eqb Pos.eqb bindI].
  rewrite example_reads. cbn [liftI ret bindI].
  unfold _getMonopole, _getQuadrupole. cbv iota beta.
  rewrite (mask_same_length knots4) by (rewrite length_map; reflexivity).
  cbn [liftI ret bindI].
  rewrite (mask_same_length (col 0 profile_table))
    by (rewrite length_map, col_length; reflexivity).
  cbn [liftI ret bindI option_map fst attr].
  rewrite !mask_same_length by (rewrite !length_map; reflexivity).
  cbn [liftI ret bindI].
  do 2 eexists. split; [ reflexivity | ].
  cbn [model icov full_fit arg_model arg_full_fit example_args].
  repeat split.
Qed.

Lemma example_run :
  exists self aux,
    init splev_ref simps_ref growth_ref growth_ref inv_ref quad_ref savgol_ref
         gradient_ref example_files (example_args 1) = inr (self, aux)
    /\ model self = 1%Z
    /\ icov self = identity 8
    /\ s_for_xi self = knots4
    /\ length (datavec self) = 8%nat.
Proof.
  destruct example_init as [self [aux [H [Hm [Hi Hf]]]]].
  exists self, aux.
  destruct (init_inversion _ _ _ _ _ _ _ _ _ _ _ _ H)
    as [_ [_ [_ [_ [[s [g [Hread [Hs _]]]] [_ Hd]]]]]].
  assert (Es : s = knots4).
  { change (xi_smu_table example_files) with grid_table in Hread.
    rewrite example_reads in Hread. injection Hread as <- _. reflexivity. }
  assert (Hknots : s_for_xi self = knots4).
  { rewrite Hs, Es. exact window_keeps_knots4. }
  repeat split; try assumption.
  rewrite Hd. unfold modelvec_length. rewrite Hf, Hknots. reflexivity.
Qed.

Lemma init_other_models_fail_witness :
  ~ (exists self aux,
        init splev_ref simps_ref growth_ref growth_ref inv_ref quad_ref
             savgol_ref gradient_ref example_files (example_args 2)
        = inr (self, aux)).
Proof.
  intros [self [aux H]].
  refine (init_other_models_fail splev_ref simps_ref growth_ref
            growth_ref inv_ref quad_ref savgol_ref gradient_ref
            example_files (example_args 2) _ _ self aux H);
    discriminate.
Defined.

Lemma init_success_invariants_witness :
  exists self aux,
    init splev_ref simps_ref growth_ref growth_ref inv_ref quad_ref savgol_ref
         gradient_ref example_files (example_args 1) = inr (self, aux)
    /\ increasing (s_for_xi self)
    /\ length (datavec self) = modelvec_length self.
Proof.
  destruct example_run as [self [aux [H _]]].
  exists self, aux. split; [ exact H | ].
  destruct (init_success_invariants _ _ _ _ _ _ _ _ _ _ _ _ H)
    as [_ [_ [_ [Hs [_ [_ [_ [Hd _]]]]]]]].
  split; assumption.
Defined.

(** The evaluator on the instance built from the example files. *)
Lemma example_run_predicted :
  exists self aux xi0 xi2,
    init splev_ref simps_ref growth_ref growth_ref inv_ref quad_ref savgol_ref
         gradient_ref example_files (example_args 1) = inr (self, aux)
    /\ predicted_multipoles splev_ref simps_ref self [0.5; 300; 1]
       = ret (xi0, xi2)
    /\ icov self = identity 8
    /\ length (datavec self) = 8%nat.
Proof.
  destruct example_run as [self [aux [H [Hm [Hi [_ Hd]]]]]].
  destruct (init_inversion _ _ _ _ _ _ _ _ _ _ _ _ H)
    as [_ [_ [_ [[_ [_ [_ [sp [Hsv _]]]]] _]]]].
  exists self, aux.
  unfold predicted_multipoles, unpack_theta. rewrite Hm.
  cbn [Z.eqb Pos.eqb unpack3 bind ret orb local].
  unfold model1_theory, model1_profiles. rewrite Hsv. cbn [attr bind ret].
  do 2 eexists.
  split; [ exact H | ]. split; [ reflexivity | ]. split; assumption.
Qed.

Lemma init_then_likelihood_witness :
  exists self aux l,
    init splev_ref simps_ref growth_ref growth_ref inv_ref quad_ref savgol_ref
         gradient_ref example_files (example_args 1) = inr (self, aux)
    /\ log_likelihood splev_ref simps_ref self [0.5; 300; 1] = ret l.
Proof.
  destruct example_run_predicted
    as [self [aux [xi0 [xi2 [H [Hpred [Hi Hd]]]]]]].
  destruct (proj1 (init_then_likelihood _ _ _ _ _ _ _ _ _ _ _ _ H))
    with (theta := [0.5; 300; 1]) (xi0 := xi0) (xi2 := xi2) as [l Hl].
  - rewrite Hi, Hd. reflexivity.
  - rewrite Hi, Hd. reflexivity.
  - exact Hpred.
  - exists self, aux, l. split; assumption.
Defined.

Lemma init_table_rows_witness :
  exists self aux s g,
    init splev_ref simps_ref growth_ref growth_ref inv_ref quad_ref savgol_ref
         gradient_ref example_files (example_args 1) = inr (self, aux)
    /\ readCorrFile (xi_smu_table example_files) = ret (s, mu_for_xi self, g)
    /\ length (xi_r_table example_files) = length s.
Proof.
  destruct example_run as [self [aux [H _]]].
  destruct (init_table_rows _ _ _ _ _ _ _ _ _ _ _ _ H)
    as [s [g [Hread [_ [Hlx _]]]]].
  exists self, aux, s, g. repeat split; assumption.
Defined.

(** * The callback inside the prior box *)

Section CallbackValue.

Variable splev : nat -> list R -> list R -> R -> R.
Variable simps : list R -> list R -> R.

(** X20. For a parameter vector the prior accepts, the callback returns the
    log-likelihood itself when the likelihood returns, and propagates its
    exception when it raises; both methods are called, the prior first. *)
Theorem log_probability_inside_box (self : RSDModel) (theta : list R)
    (tr : list call) :
  log_prior self theta = ret (Fin 0.0) ->
  (forall l, log_likelihood splev simps self theta = ret l ->
             log_probability (rsd_object splev simps self) theta tr
             = (ret (Fin l),
                tr ++ [CallLogPrior theta; CallLogLikelihood theta]))
  /\ (forall e, log_likelihood splev simps self theta = raise e ->
                log_probability (rsd_object splev simps self) theta tr
                = (raise e,
                   tr ++ [CallLogPrior theta; CallLogLikelihood theta])).
Proof.
  intros Hp. split.
  - intros l Hl. unfold log_probability, run_bind, invoke, rsd_object.
    cbn [obj_log_prior obj_log_likelihood]. rewrite Hp.
    cbn [ret np_isfinite negb]. rewrite Hl. cbn [ret run_ret pyfloat_add].
    rewrite <- app_assoc. cbn [app].
    replace (0.0 + l) with l by lra. reflexivity.
  - intros e Hl. unfold log_probability, run_bind, invoke, rsd_object.
    cbn [obj_log_prior obj_log_likelihood]. rewrite Hp.
    cbn [ret np_isfinite negb]. rewrite Hl. cbn [raise].
    rewrite <- app_assoc. reflexivity.
Qed.

End CallbackValue.

Lemma log_probability_inside_box_witness :
  log_probability (rsd_object splev_ref simps_ref (example_model 3))
                  [0.5; 300; 1] []
  = (raise ValueError,
     [CallLogPrior [0.5; 300; 1]; CallLogLikelihood [0.5; 300; 1]]).
Proof.
  refine (proj2 (log_probability_inside_box splev_ref simps_ref
                   (example_model 3) [0.5; 300; 1] [] _) ValueError _).
  - unfold log_prior. cbn. eval_ltb. reflexivity.
  - reflexivity.
Defined.
